(** * Reordering the [paths] of an OpenAPI document by tag

    A shallow embedding of [scripts/reorganize-by-tags.py] and the properties
    of its function [reorganize_paths_by_tags].

    The document is the tree of Python objects that [yaml.safe_load] builds.
    Python raises exceptions; the embedding returns [Raise e] at the same
    points.  The progress lines written with [print] have no effect on the
    returned mapping and are left out. *)

From Stdlib Require Import List String Ascii ZArith Bool Lia.
From Stdlib Require Import Permutation Sorted.
Import ListNotations.
Open Scope string_scope.
Open Scope list_scope.

(** ** Python objects *)

(** The objects of a loaded document: [None], booleans, integers, strings,
    lists and dicts.  A dict is the list of its items in insertion order;
    its keys are strings, as in every JSON-compatible document, and are
    pairwise different (Python guarantees it; the theorems assume it where
    they need it).  A character stands for one code point, strings are
    compared by code point like Python's [str].  Floating-point scalars are
    outside the model, and so are the mappings with a key that is not a
    string, which YAML allows: with such keys [sorted] can raise on the
    path keys and [tags[0]] can find the key [0].  A theorem that says that
    the function returns, or exactly when it does, says so for the
    documents whose mapping keys are strings. *)
#[warnings="-register-all"]
Inductive value : Type :=
| VNone
| VBool (b : bool)
| VInt (n : Z)
| VStr (s : string)
| VList (l : list value)
| VDict (d : list (string * value)).

(** The exceptions the function can raise. *)
Inductive exn : Type :=
| KeyError (k : value)
| TypeError
| AttributeError
| IndexError.

Inductive result (A : Type) : Type :=
| Ok (a : A)
| Raise (e : exn).

Arguments Ok {A} a.
Arguments Raise {A} e.

Definition bind {A B : Type} (c : result A) (k : A -> result B) : result B :=
  match c with
  | Ok a => k a
  | Raise e => Raise e
  end.

Notation "x <- c ;; k" := (bind c (fun x => k))
  (at level 61, c at next level, right associativity).

(** A [for] loop whose body updates a state and may raise. *)
Fixpoint for_each {S X : Type} (body : S -> X -> result S) (xs : list X) (s : S)
  : result S :=
  match xs with
  | [] => Ok s
  | x :: rest => s' <- body s x ;; for_each body rest s'
  end.

(** A list comprehension [[f x for x in xs]]. *)
Fixpoint comprehension {X Y : Type} (f : X -> result Y) (xs : list X)
  : result (list Y) :=
  match xs with
  | [] => Ok []
  | x :: rest => y <- f x ;; ys <- comprehension f rest ;; Ok (y :: ys)
  end.

(** What a dict compares its keys with.  [True == 1] and [False == 0] in
    Python, and equal objects have equal hashes, so a boolean and the
    integer it equals are one key. *)
Inductive key : Type :=
| KNone
| KInt (n : Z)
| KStr (s : string).

Class EqKey (K : Type) : Type := keqb : K -> K -> bool.

#[export] Instance string_EqKey : EqKey string := String.eqb.

#[export] Instance key_EqKey : EqKey key :=
  fun a b =>
    match a, b with
    | KNone, KNone => true
    | KInt n, KInt m => (n =? m)%Z
    | KStr s, KStr t => (s =? t)%string
    | _, _ => false
    end.

(** [keqb] decides equality. *)
Class EqKeyLaws (K : Type) `{EqKey K} : Prop :=
  keqb_eq : forall a b : K, keqb a b = true <-> a = b.

(** ** Insertion-ordered dicts *)

Section Dict.
Context {K V : Type} `{EqKey K}.

(** [d.get(k)]: the value at [k], if any. *)
Fixpoint dict_get (d : list (K * V)) (k : K) : option V :=
  match d with
  | [] => None
  | (k', v) :: rest => if keqb k' k then Some v else dict_get rest k
  end.

(** [d[k] = v]: an existing key keeps its position, a new key goes last. *)
Fixpoint dict_set (d : list (K * V)) (k : K) (v : V) : list (K * V) :=
  match d with
  | [] => [(k, v)]
  | (k', v') :: rest =>
      if keqb k' k then (k', v) :: rest else (k', v') :: dict_set rest k v
  end.

(** [k in d]. *)
Definition dict_mem (d : list (K * V)) (k : K) : bool :=
  match dict_get d k with
  | Some _ => true
  | None => false
  end.

End Dict.

(** [d[k].append(x)] on a [defaultdict(list)]: a missing key is created with
    an empty list first. *)
Definition append_to {K X : Type} `{EqKey K}
  (d : list (K * list X)) (k : K) (x : X) : list (K * list X) :=
  dict_set d k (match dict_get d k with
                | Some l => l ++ [x]
                | None => [x]
                end).

(** ** The Python operations the function uses *)

(** [bool(v)], the test of an [if]. *)
Definition truthy (v : value) : bool :=
  match v with
  | VNone => false
  | VBool b => b
  | VInt n => negb (n =? 0)%Z
  | VStr s => negb (s =? "")%string
  | VList l => negb (Nat.eqb (List.length l) 0)
  | VDict d => negb (Nat.eqb (List.length d) 0)
  end.

(** [v.get(k, default)]: only a dict has the method. *)
Definition get_default (v : value) (k : string) (default : value) : result value :=
  match v with
  | VDict d =>
      match dict_get d k with
      | Some x => Ok x
      | None => Ok default
      end
  | _ => Raise AttributeError
  end.

(** [v.items()]: only a dict has the method. *)
Definition items (v : value) : result (list (string * value)) :=
  match v with
  | VDict d => Ok d
  | _ => Raise AttributeError
  end.

(** [for x in v]: a list yields its elements, a string its characters, a dict
    its keys; nothing else is iterable. *)
Definition iterate (v : value) : result (list value) :=
  match v with
  | VList l => Ok l
  | VStr s => Ok (map (fun c => VStr (String c "")) (list_ascii_of_string s))
  | VDict d => Ok (map (fun kv => VStr (fst kv)) d)
  | VNone | VBool _ | VInt _ => Raise TypeError
  end.

(** [v[k]] for a string [k]: a dict looks the key up, lists and strings take
    integer indices only, the other objects are not subscriptable. *)
Definition getitem_str (v : value) (k : string) : result value :=
  match v with
  | VDict d =>
      match dict_get d k with
      | Some x => Ok x
      | None => Raise (KeyError (VStr k))
      end
  | _ => Raise TypeError
  end.

(** [v[0]]: the first element of a list, the first character of a string; a
    dict has no key [0], its keys being strings. *)
Definition getitem_0 (v : value) : result value :=
  match v with
  | VList (x :: _) => Ok x
  | VList [] => Raise IndexError
  | VStr (String c _) => Ok (VStr (String c ""))
  | VStr EmptyString => Raise IndexError
  | VDict _ => Raise (KeyError (VInt 0))
  | VNone | VBool _ | VInt _ => Raise TypeError
  end.

(** [hash(v)], needed to use [v] as a dict key: lists and dicts are not
    hashable. *)
Definition hash_key (v : value) : result key :=
  match v with
  | VNone => Ok KNone
  | VBool b => Ok (KInt (if b then 1 else 0))
  | VInt n => Ok (KInt n)
  | VStr s => Ok (KStr s)
  | VList _ | VDict _ => Raise TypeError
  end.

(** [k in xs] for a dict key [k] and a list [xs]: some element equals [k].
    A list or a dict never equals a scalar. *)
Definition list_contains (xs : list value) (k : key) : bool :=
  existsb (fun x => match hash_key x with
                    | Ok k' => keqb k' k
                    | Raise _ => false
                    end) xs.

(** [sorted(l, key=lambda x: x[0])]: a stable sort by the path string.
    The keys being strings, the comparison never raises. *)
Fixpoint insert_by_path (x : string * value) (l : list (string * value))
  : list (string * value) :=
  match l with
  | [] => [x]
  | y :: rest =>
      if (fst x <=? fst y)%string then x :: y :: rest
      else y :: insert_by_path x rest
  end.

Definition sorted_by_path (l : list (string * value)) : list (string * value) :=
  fold_right insert_by_path [] l.

(** ** [reorganize_paths_by_tags] *)

Definition untagged : key := KStr "untagged".

(** Lines 28-34: the scan of one PathItem.  The result is the value of
    [primary_tag] when the loop ends, [None] when nothing was found. *)
Fixpoint find_primary_tag (entries : list (string * value)) : result value :=
  match entries with
  | [] => Ok VNone
  | (method, operation) :: rest =>
      match operation with
      | VDict op =>
          match dict_get op "tags" with
          | Some tags =>
              if truthy tags then getitem_0 tags else find_primary_tag rest
          | None => find_primary_tag rest
          end
      | _ => find_primary_tag rest
      end
  end.

(** Lines 28-40: the key of the bucket a path goes into. *)
Definition bucket_of (path_spec : value) : result key :=
  entries <- items path_spec ;;
  primary_tag <- find_primary_tag entries ;;
  if truthy primary_tag then hash_key primary_tag else Ok untagged.

(** Lines 22-41: the buckets, in the order their tags are met. *)
Definition group_paths (paths : list (string * value))
  : result (list (key * list (string * value))) :=
  for_each
    (fun paths_by_tag entry =>
       k <- bucket_of (snd entry) ;;
       Ok (append_to paths_by_tag k entry))
    paths [].

(** The inner loops of lines 50-52, 57-59 and 65-67. *)
Definition emit (bucket : list (string * value)) (new_paths : list (string * value))
  : list (string * value) :=
  fold_left (fun np entry => dict_set np (fst entry) (snd entry))
    (sorted_by_path bucket) new_paths.

(** Lines 47-52. *)
Definition emit_declared (paths_by_tag : list (key * list (string * value)))
  (tag_order : list value) : result (list (string * value)) :=
  for_each
    (fun new_paths tag =>
       k <- hash_key tag ;;
       Ok (match dict_get paths_by_tag k with
           | Some bucket => emit bucket new_paths
           | None => new_paths
           end))
    tag_order [].

(** Lines 55-59. *)
Definition emit_untagged (paths_by_tag : list (key * list (string * value)))
  (new_paths : list (string * value)) : list (string * value) :=
  match dict_get paths_by_tag untagged with
  | Some bucket => emit bucket new_paths
  | None => new_paths
  end.

(** Lines 62-67. *)
Definition emit_unlisted (paths_by_tag : list (key * list (string * value)))
  (tag_order : list value) (new_paths : list (string * value))
  : list (string * value) :=
  fold_left
    (fun np tb =>
       if negb (list_contains tag_order (fst tb)) && negb (keqb (fst tb) untagged)
       then emit (snd tb) np
       else np)
    paths_by_tag new_paths.

(** Line 18. *)
Definition tag_order_of (api_spec : value) : result (list value) :=
  tags <- get_default api_spec "tags" (VList []) ;;
  tag_list <- iterate tags ;;
  comprehension (fun tag => getitem_str tag "name") tag_list.

Definition reorganize_paths_by_tags (api_spec : value)
  : result (list (string * value)) :=
  tag_order <- tag_order_of api_spec ;;
  paths_obj <- getitem_str api_spec "paths" ;;
  paths <- items paths_obj ;;
  paths_by_tag <- group_paths paths ;;
  new_paths <- emit_declared paths_by_tag tag_order ;;
  Ok (emit_unlisted paths_by_tag tag_order (emit_untagged paths_by_tag new_paths)).

(** Line 95 of [main]: [api_spec['paths'] = dict(new_paths)]. *)
Definition set_paths (api_spec : value) (new_paths : list (string * value)) : value :=
  match api_spec with
  | VDict d => VDict (dict_set d "paths" (VDict new_paths))
  | other => other
  end.

(** ** [main] *)

(** [v.keys()]: only a dict has the method. *)
Definition dict_keys (v : value) : result (list string) :=
  match v with
  | VDict d => Ok (map fst d)
  | _ => Raise AttributeError
  end.

(** Lines 76-95 of [main], from the loaded document to the document that
    is handed to [yaml.dump]: the listing of the original paths (line 79
    reads [api_spec['paths'].keys()]), the call of the function, and the
    replacement of [paths].  Reading and writing the files is left out. *)
Definition main (api_spec : value) : result value :=
  paths_obj <- getitem_str api_spec "paths" ;;
  original <- dict_keys paths_obj ;;
  new_paths <- reorganize_paths_by_tags api_spec ;;
  Ok (set_paths api_spec new_paths).

(** ** Vocabulary of the properties *)

(** The entries of [l] that are filed under [k]. *)
Definition select {K X : Type} `{EqKey K} (cls : X -> K) (k : K) (l : list X)
  : list X :=
  filter (fun e => keqb (cls e) k) l.

(** The elements of [l] in the order of their first occurrence. *)
Fixpoint dedup {K : Type} `{EqKey K} (l : list K) : list K :=
  match l with
  | [] => []
  | x :: rest => x :: filter (fun y => negb (keqb x y)) (dedup rest)
  end.

(** One more element at the end of a duplicate-free sequence. *)
Definition add_key {K : Type} `{EqKey K} (E : list K) (k : K) : list K :=
  if existsb (keqb k) E then E else E ++ [k].

(** The bucket key of an entry of [paths]; [KNone] where the scan raises
    (no returned mapping has such an entry). *)
Definition tag_of (entry : string * value) : key :=
  match bucket_of (snd entry) with
  | Ok k => k
  | Raise _ => KNone
  end.

(** The keys of [tag_order]; [KNone] for a name that cannot be a key. *)
Definition declared (tag_order : list value) : list key :=
  map (fun tag => match hash_key tag with
                  | Ok k => k
                  | Raise _ => KNone
                  end) tag_order.

(** The order in which the buckets reach the output: the declared tags that
    have a bucket, then [untagged] if it has one, then the buckets of the
    tags that are not declared, as the scan met them. *)
Definition emission_order (ks : list key) (paths : list (string * value))
  : list key :=
  let found := dedup (map tag_of paths) in
  dedup (filter (fun k => existsb (keqb k) found) ks
         ++ filter (fun k => existsb (keqb k) found) [untagged]
         ++ filter (fun k => negb (existsb (keqb k) ks) && negb (keqb k untagged))
              found).

(** The sorted bucket of [k]. *)
Definition block (paths : list (string * value)) (k : key) : list (string * value) :=
  sorted_by_path (select tag_of k paths).

(** [p] comes before [q] in [l]. *)
Definition precedes {X : Type} (l : list X) (p q : X) : Prop :=
  exists l1 l2 l3, l = l1 ++ p :: l2 ++ q :: l3.

(** The order of [sorted]: by path string. *)
Definition path_le (e1 e2 : string * value) : Prop :=
  (fst e1 <=? fst e2)%string = true.

(** The keys of a dict. *)
Definition keys {K V : Type} (d : list (K * V)) : list K := map fst d.

(** No two elements of [l] are equal. *)
Fixpoint distinct {K : Type} `{EqKey K} (l : list K) : bool :=
  match l with
  | [] => true
  | x :: rest => negb (existsb (keqb x) rest) && distinct rest
  end.

(** An entry of a PathItem that stops the scan: a mapping with a [tags]
    field that is not empty (lines 30-31). *)
Definition qualifies (entry : string * value) : bool :=
  match snd entry with
  | VDict op =>
      match dict_get op "tags" with
      | Some tags => truthy tags
      | None => false
      end
  | _ => false
  end.

(** The [tags] values that the scan reads without raising: the falsy
    ones, the strings, and the sequences whose first element is falsy or a
    scalar.  The others are read with [tags[0]] or used as a dict key and
    raise there (lines 32 and 37). *)
Definition usable_tags (tags : value) : bool :=
  negb (truthy tags)
  || match tags with
     | VStr _ => true
     | VList (t :: _) =>
         negb (truthy t)
         || match t with
            | VList _ | VDict _ => false
            | _ => true
            end
     | _ => false
     end.

(** An entry of a PathItem with any value but a mapping whose [tags] is not
    usable. *)
Definition entry_ok (entry : string * value) : bool :=
  match snd entry with
  | VDict op =>
      match dict_get op "tags" with
      | Some tags => usable_tags tags
      | None => true
      end
  | _ => true
  end.

(** ** Example documents *)

(** An operation with the given tag names. *)
Definition operation (tags : list string) : value :=
  VDict [("tags", VList (map VStr tags))].

(** A tag declaration. *)
Definition tag_decl (name : string) : value := VDict [("name", VStr name)].

(** Two declared tags; a path without tags and a path with a tag that is
    not declared. *)
Definition petstore_paths : list (string * value) :=
  [("/store/order", VDict [("get", operation ["store"])]);
   ("/pets", VDict [("get", operation ["pets"])]);
   ("/admin", VDict [("get", operation ["admin"])]);
   ("/health", VDict [("get", operation [])]);
   ("/pets/{id}", VDict [("get", operation ["pets"])])].

Definition petstore : value :=
  VDict [("tags", VList [tag_decl "pets"; tag_decl "store"]);
         ("paths", VDict petstore_paths)].

Definition petstore_sorted : list (string * value) :=
  [("/pets", VDict [("get", operation ["pets"])]);
   ("/pets/{id}", VDict [("get", operation ["pets"])]);
   ("/store/order", VDict [("get", operation ["store"])]);
   ("/health", VDict [("get", operation [])]);
   ("/admin", VDict [("get", operation ["admin"])])].

(** A PathItem with a summary, an operation without tags, and two tagged
    operations. *)
Definition mixed_item : list (string * value) :=
  [("summary", VStr "orders");
   ("get", operation []);
   ("post", operation ["pets"; "store"]);
   ("put", operation ["store"])].

(** A PathItem whose only operation has the empty string as its tag. *)
Definition empty_tag_item : list (string * value) :=
  [("get", operation [""])].

(** A tag declared twice. *)
Definition twice_declared : value :=
  VDict [("tags", VList [tag_decl "store"; tag_decl "pets"; tag_decl "store"]);
         ("paths", VDict [("/pets", VDict [("get", operation ["pets"])]);
                          ("/store", VDict [("get", operation ["store"])])])].

(** A document that declares a tag named "untagged", with one path that
    carries that tag and one path without tags. *)
Definition untagged_declared_paths : list (string * value) :=
  [("/zeta", VDict [("get", operation [])]);
   ("/beta", VDict [("get", operation ["pets"])]);
   ("/alpha", VDict [("get", operation ["untagged"])])].

Definition untagged_declared : value :=
  VDict [("tags", VList [tag_decl "untagged"; tag_decl "pets"]);
         ("paths", VDict untagged_declared_paths)].

(** A document without [paths] whose [tags] field is empty in the YAML
    source, hence [None]. *)
Definition no_paths_null_tags : value := VDict [("tags", VNone)].

(** A document without [paths] and without [tags]. *)
Definition no_paths : value := VDict [("info", VStr "api")].

(** An operation whose [tags] field holds a number. *)
Definition numeric_tags : value :=
  VDict [("paths", VDict [("/a", VDict [("get", VDict [("tags", VInt 5)])])])].

(** PathItems with entries of many shapes. *)
Definition odd_entries : value :=
  VDict [("tags", VList [tag_decl "pets"]);
         ("paths",
          VDict [("/b", VDict [("parameters", VList [VInt 1]);
                               ("x-note", VNone);
                               ("get", VDict [("tags", VStr "")]);
                               ("put", VDict [("summary", VStr "s")])]);
                 ("/a", VDict [("get", VDict [("tags", VList [])]);
                               ("post", operation ["pets"])])])].


(** The petstore document with its paths in another order, and without the
    path of the tag that is not declared. *)
Definition declared_paths : list (string * value) :=
  [("/store/order", VDict [("get", operation ["store"])]);
   ("/pets", VDict [("get", operation ["pets"])]);
   ("/health", VDict [("get", operation [])]);
   ("/pets/{id}", VDict [("get", operation ["pets"])])].

Definition declared_paths_shuffled : list (string * value) :=
  [("/pets/{id}", VDict [("get", operation ["pets"])]);
   ("/health", VDict [("get", operation [])]);
   ("/store/order", VDict [("get", operation ["store"])]);
   ("/pets", VDict [("get", operation ["pets"])])].

Definition declared_only : value :=
  VDict [("tags", VList [tag_decl "pets"; tag_decl "store"]);
         ("paths", VDict declared_paths)].

Definition declared_only_shuffled : value :=
  VDict [("tags", VList [tag_decl "pets"; tag_decl "store"]);
         ("paths", VDict declared_paths_shuffled)].

Definition declared_sorted : list (string * value) :=
  [("/pets", VDict [("get", operation ["pets"])]);
   ("/pets/{id}", VDict [("get", operation ["pets"])]);
   ("/store/order", VDict [("get", operation ["store"])]);
   ("/health", VDict [("get", operation [])])].

(** Two tags that are not declared. *)
Definition two_unlisted_paths : list (string * value) :=
  [("/b", VDict [("get", operation ["zoo"])]);
   ("/a", VDict [("get", operation ["admin"])]);
   ("/c", VDict [("get", operation ["zoo"])])].

Definition two_unlisted : value :=
  VDict [("info", VStr "api"); ("paths", VDict two_unlisted_paths)].

(** The petstore document with one more top-level field. *)
Definition petstore_with_info : value :=
  VDict [("openapi", VStr "3.0.0");
         ("tags", VList [tag_decl "pets"; tag_decl "store"]);
         ("paths", VDict petstore_paths)].


(** The second PathItem is a list. *)
Definition list_path_item : value :=
  VDict [("paths", VDict [("/a", VDict [("get", operation ["pets"])]);
                          ("/b", VList [VStr "get"]);
                          ("/c", VDict [("get", VDict [("tags", VInt 5)])])])].

(** A document that declares "untagged" between two other tags. *)
Definition untagged_in_the_middle_paths : list (string * value) :=
  [("/zeta", VDict [("get", operation [])]);
   ("/gamma", VDict [("get", operation ["store"])]);
   ("/beta", VDict [("get", operation ["pets"])]);
   ("/alpha", VDict [("get", operation ["untagged"])])].

Definition untagged_in_the_middle : value :=
  VDict [("tags", VList [tag_decl "pets"; tag_decl "untagged"; tag_decl "store"]);
         ("paths", VDict untagged_in_the_middle_paths)].

Definition untagged_in_the_middle_sorted : list (string * value) :=
  [("/beta", VDict [("get", operation ["pets"])]);
   ("/alpha", VDict [("get", operation ["untagged"])]);
   ("/zeta", VDict [("get", operation [])]);
   ("/gamma", VDict [("get", operation ["store"])])].

(** * Properties *)

(** ** Keys are compared by equality *)

#[export] Instance string_EqKeyLaws : EqKeyLaws string := String.eqb_eq.

#[export] Instance key_EqKeyLaws : EqKeyLaws key.
Proof.
  intros [| n | s] [| m | t]; cbn; try (split; congruence).
  - rewrite Z.eqb_eq. split; congruence.
  - rewrite String.eqb_eq. split; congruence.
Qed.

Section KeyFacts.
Context {K : Type} `{EqKeyLaws K}.

Lemma keqb_spec (a b : K) : reflect (a = b) (keqb a b).
Proof. apply iff_reflect. symmetry. apply keqb_eq. Qed.

Lemma keqb_refl (a : K) : keqb a a = true.
Proof. now apply keqb_eq. Qed.

Lemma keqb_neq (a b : K) : keqb a b = false <-> a <> b.
Proof. destruct (keqb_spec a b); split; congruence. Qed.

Lemma keqb_sym (a b : K) : keqb a b = keqb b a.
Proof.
  destruct (keqb_spec a b) as [-> | Hab].
  - now rewrite keqb_refl.
  - symmetry. apply keqb_neq. congruence.
Qed.

Lemma mem_In (k : K) (l : list K) : existsb (keqb k) l = true <-> In k l.
Proof.
  rewrite existsb_exists. split.
  - intros (x & Hx & Hk). apply keqb_eq in Hk. now subst.
  - intros Hk. exists k. split; [assumption | apply keqb_refl].
Qed.

Lemma mem_not_In (k : K) (l : list K) : existsb (keqb k) l = false <-> ~ In k l.
Proof.
  rewrite <- mem_In. destruct (existsb (keqb k) l); split; congruence.
Qed.

End KeyFacts.

(** ** Dicts *)

Section DictFacts.
Context {K V : Type} `{EqKeyLaws K}.
Implicit Types (d : list (K * V)) (k : K) (v : V).

Lemma dict_get_Some_In d k v : dict_get d k = Some v -> In (k, v) d.
Proof.
  induction d as [| [k' v'] d IH]; cbn; [discriminate |].
  destruct (keqb_spec k' k) as [-> | Hne].
  - intros [= ->]. now left.
  - intros Hd. right. now apply IH.
Qed.

Lemma dict_get_None d k : dict_get d k = None <-> ~ In k (keys d).
Proof.
  induction d as [| [k' v'] d IH]; cbn; [tauto |].
  destruct (keqb_spec k' k) as [-> | Hne].
  - split; [discriminate | tauto].
  - rewrite IH. tauto.
Qed.

Lemma In_dict_get d k v :
  NoDup (keys d) -> In (k, v) d -> dict_get d k = Some v.
Proof.
  induction d as [| [k' v'] d IH]; cbn; [tauto |].
  intros Hnd [Heq | Hin]; inversion Hnd as [| ? ? Hk' Hnd']; subst.
  - injection Heq as -> ->. now rewrite keqb_refl.
  - destruct (keqb_spec k' k) as [-> | Hne].
    + exfalso. apply Hk'. change k with (fst (k, v)). now apply in_map.
    + now apply IH.
Qed.

Lemma dict_set_same d k v : dict_get d k = Some v -> dict_set d k v = d.
Proof.
  induction d as [| [k' v'] d IH]; cbn; [discriminate |].
  destruct (keqb_spec k' k) as [-> | Hne].
  - now intros [= ->].
  - intros Hd. now rewrite IH.
Qed.

Lemma dict_set_new d k v : ~ In k (keys d) -> dict_set d k v = d ++ [(k, v)].
Proof.
  induction d as [| [k' v'] d IH]; cbn; [reflexivity |].
  intros Hk. destruct (keqb_spec k' k) as [-> | Hne]; [tauto |].
  rewrite IH; tauto.
Qed.

(** Writing entries that the dict already holds changes nothing. *)
Lemma write_all_present (l : list (K * V)) d :
  (forall e, In e l -> dict_get d (fst e) = Some (snd e)) ->
  fold_left (fun np e => dict_set np (fst e) (snd e)) l d = d.
Proof.
  induction l as [| e l IH]; cbn; [reflexivity |].
  intros Hl. rewrite dict_set_same by (apply Hl; now left).
  apply IH. intros e' He'. apply Hl. now right.
Qed.

(** Writing entries under new, pairwise different keys appends them. *)
Lemma write_all_fresh (l : list (K * V)) d :
  NoDup (keys l) ->
  (forall k, In k (keys l) -> ~ In k (keys d)) ->
  fold_left (fun np e => dict_set np (fst e) (snd e)) l d = d ++ l.
Proof.
  revert d. induction l as [| [k v] l IH]; cbn; intros d Hnd Hfresh.
  - now rewrite app_nil_r.
  - inversion Hnd as [| ? ? Hk Hnd']; subst.
    rewrite dict_set_new by (apply Hfresh; now left).
    rewrite IH; [now rewrite <- app_assoc | assumption |].
    intros k' Hk'. unfold keys. rewrite map_app, in_app_iff. cbn.
    intros [Hd | [-> | []]]; [| tauto].
    apply (Hfresh k'); [now right | assumption].
Qed.

End DictFacts.

(** ** The order of the path strings *)

Lemma string_leb_trans (s1 s2 s3 : string) :
  (s1 <=? s2)%string = true -> (s2 <=? s3)%string = true ->
  (s1 <=? s3)%string = true.
Proof.
  unfold String.leb. revert s2 s3.
  induction s1 as [| c1 s1 IH]; intros [| c2 s2] [| c3 s3]; cbn;
    try congruence.
  unfold Ascii.compare.
  destruct (N.compare_spec (N_of_ascii c1) (N_of_ascii c2)) as [E12 | L12 | G12];
    destruct (N.compare_spec (N_of_ascii c2) (N_of_ascii c3)) as [E23 | L23 | G23];
    destruct (N.compare_spec (N_of_ascii c1) (N_of_ascii c3)) as [E13 | L13 | G13];
    try congruence; try lia.
  apply IH.
Qed.

Lemma path_le_total (e1 e2 : string * value) : path_le e1 e2 \/ path_le e2 e1.
Proof. apply String.leb_total. Qed.

Lemma path_le_trans (e1 e2 e3 : string * value) :
  path_le e1 e2 -> path_le e2 e3 -> path_le e1 e3.
Proof. apply string_leb_trans. Qed.

(** ** [sorted] *)

Lemma insert_by_path_perm (x : string * value) (l : list (string * value)) :
  Permutation (insert_by_path x l) (x :: l).
Proof.
  induction l as [| y l IH]; cbn; [reflexivity |].
  destruct (fst x <=? fst y)%string; [reflexivity |].
  rewrite IH. apply perm_swap.
Qed.

Lemma sorted_by_path_perm (l : list (string * value)) :
  Permutation (sorted_by_path l) l.
Proof.
  induction l as [| x l IH]; cbn; [reflexivity |].
  rewrite insert_by_path_perm. now constructor.
Qed.

Lemma sorted_by_path_In (l : list (string * value)) (e : string * value) :
  In e (sorted_by_path l) <-> In e l.
Proof.
  split; apply Permutation_in; [| symmetry]; apply sorted_by_path_perm.
Qed.

Lemma insert_by_path_sorted (x : string * value) (l : list (string * value)) :
  StronglySorted path_le l -> StronglySorted path_le (insert_by_path x l).
Proof.
  induction 1 as [| y l Hs IH Hy]; cbn.
  - repeat constructor.
  - destruct (fst x <=? fst y)%string eqn:Hxy.
    + constructor; [now constructor |].
      constructor; [exact Hxy |].
      eapply Forall_impl; [| exact Hy].
      intros z Hz. eapply path_le_trans; [exact Hxy | exact Hz].
    + constructor; [exact IH |].
      rewrite Forall_forall. intros z Hz.
      apply (Permutation_in _ (insert_by_path_perm x l)) in Hz.
      destruct Hz as [<- | Hz].
      * destruct (path_le_total x y) as [Hle | Hle]; [| exact Hle].
        unfold path_le in Hle. congruence.
      * rewrite Forall_forall in Hy. now apply Hy.
Qed.

Lemma sorted_by_path_sorted (l : list (string * value)) :
  StronglySorted path_le (sorted_by_path l).
Proof.
  induction l as [| x l IH]; cbn; [constructor |].
  now apply insert_by_path_sorted.
Qed.

(** Sorting a sorted list returns it. *)
Lemma sorted_by_path_fixed (l : list (string * value)) :
  StronglySorted path_le l -> sorted_by_path l = l.
Proof.
  induction 1 as [| x l Hs IH Hx]; [reflexivity |].
  change (insert_by_path x (sorted_by_path l) = x :: l).
  rewrite IH. destruct l as [| y l]; cbn; [reflexivity |].
  inversion Hx as [| ? ? Hxy _]; subst.
  unfold path_le in Hxy. now rewrite Hxy.
Qed.

Lemma sorted_by_path_idem (l : list (string * value)) :
  sorted_by_path (sorted_by_path l) = sorted_by_path l.
Proof. apply sorted_by_path_fixed, sorted_by_path_sorted. Qed.

(** ** First occurrences *)

Lemma filter_all {X : Type} (f : X -> bool) (l : list X) :
  (forall x, In x l -> f x = true) -> filter f l = l.
Proof.
  induction l as [| x l IH]; cbn; [reflexivity |].
  intros Hl. rewrite (Hl x) by now left.
  f_equal. apply IH. intros y Hy. apply Hl. now right.
Qed.

Lemma filter_none {X : Type} (f : X -> bool) (l : list X) :
  (forall x, In x l -> f x = false) -> filter f l = [].
Proof.
  induction l as [| x l IH]; cbn; [reflexivity |].
  intros Hl. rewrite (Hl x) by now left.
  apply IH. intros y Hy. apply Hl. now right.
Qed.

Lemma filter_swap {X : Type} (f g : X -> bool) (l : list X) :
  filter f (filter g l) = filter g (filter f l).
Proof.
  induction l as [| x l IH]; cbn; [reflexivity |].
  destruct (f x) eqn:Hf, (g x) eqn:Hg; cbn; rewrite ?Hf, ?Hg, IH; reflexivity.
Qed.

Section DedupFacts.
Context {K : Type} `{EqKeyLaws K}.
Implicit Types (k : K) (l : list K).

Lemma In_dedup k l : In k (dedup l) <-> In k l.
Proof.
  induction l as [| x l IH]; cbn; [tauto |].
  rewrite filter_In, IH, negb_true_iff, keqb_neq.
  destruct (keqb_spec x k); tauto.
Qed.

Lemma NoDup_dedup l : NoDup (dedup l).
Proof.
  induction l as [| x l IH]; cbn; constructor.
  - rewrite filter_In, keqb_refl. cbn. intros [_ [=]].
  - now apply NoDup_filter.
Qed.

Lemma dedup_fixed l : NoDup l -> dedup l = l.
Proof.
  induction 1 as [| x l Hx Hnd IH]; cbn; [reflexivity |].
  rewrite IH. f_equal. apply filter_all.
  intros y Hy. apply negb_true_iff, keqb_neq. congruence.
Qed.

Lemma filter_dedup (f : K -> bool) l : filter f (dedup l) = dedup (filter f l).
Proof.
  induction l as [| x l IH]; cbn; [reflexivity |].
  destruct (f x) eqn:Hf; cbn.
  - now rewrite filter_swap, IH.
  - rewrite filter_swap, IH. apply filter_all.
    intros y Hy. apply negb_true_iff, keqb_neq. intros <-.
    apply In_dedup, filter_In in Hy. destruct Hy. congruence.
Qed.

Lemma dedup_app l1 l2 :
  dedup (l1 ++ l2)
  = dedup l1 ++ filter (fun y => negb (existsb (keqb y) l1)) (dedup l2).
Proof.
  induction l1 as [| x l1 IH]; cbn.
  - symmetry. now apply filter_all.
  - rewrite IH, filter_app. do 2 f_equal.
    rewrite filter_swap, !filter_dedup. f_equal.
    rewrite <- filter_swap. clear IH.
    induction l2 as [| y l2 IH2]; cbn; [reflexivity |].
    rewrite (keqb_sym y x).
    destruct (existsb (keqb y) l1); cbn;
      destruct (keqb x y); cbn; now rewrite IH2.
Qed.

Lemma dedup_snoc l k : dedup (l ++ [k]) = add_key (dedup l) k.
Proof.
  rewrite dedup_app. cbn. unfold add_key.
  destruct (existsb (keqb k) l) eqn:Hk.
  - apply mem_In, In_dedup, mem_In in Hk. rewrite Hk. apply app_nil_r.
  - apply mem_not_In in Hk. rewrite <- In_dedup in Hk.
    apply mem_not_In in Hk. now rewrite Hk.
Qed.

End DedupFacts.

(** ** Before and after *)

Section PrecedesFacts.
Context {X : Type}.
Implicit Types (l : list X) (a b x : X).

Lemma precedes_cons l a b x : precedes l a b -> precedes (x :: l) a b.
Proof. intros (l1 & l2 & l3 & ->). now exists (x :: l1), l2, l3. Qed.

Lemma precedes_head l a b : In b l -> precedes (a :: l) a b.
Proof.
  intros Hb. apply in_split in Hb as (l2 & l3 & ->). now exists [], l2, l3.
Qed.

Lemma precedes_app_r l l' a b : precedes l a b -> precedes (l' ++ l) a b.
Proof.
  intros (l1 & l2 & l3 & ->). exists (l' ++ l1), l2, l3.
  now rewrite <- app_assoc.
Qed.

Lemma precedes_across l l' a b : In a l -> In b l' -> precedes (l ++ l') a b.
Proof.
  intros Ha Hb. apply in_split in Ha as (l1 & l2 & ->).
  apply in_split in Hb as (l3 & l4 & ->).
  exists l1, (l2 ++ l3), l4. now rewrite <- !app_assoc, <- app_comm_cons.
Qed.

Lemma precedes_filter (f : X -> bool) l a b :
  f a = true -> f b = true -> precedes l a b -> precedes (filter f l) a b.
Proof.
  intros Ha Hb (l1 & l2 & l3 & ->).
  exists (filter f l1), (filter f l2), (filter f l3).
  rewrite filter_app. cbn. rewrite Ha, filter_app. cbn. now rewrite Hb.
Qed.

Lemma precedes_map {Y : Type} (f : X -> Y) l a b :
  precedes l a b -> precedes (map f l) (f a) (f b).
Proof.
  intros (l1 & l2 & l3 & ->). exists (map f l1), (map f l2), (map f l3).
  now rewrite map_app, map_cons, map_app, map_cons.
Qed.

(** In a list without duplicates nothing comes both before and after. *)
Lemma precedes_asym l a b : NoDup l -> precedes l a b -> ~ precedes l b a.
Proof.
  intros Hnd (l1 & l2 & l3 & ->) (m1 & m2 & m3 & Heq).
  revert m1 Heq Hnd. induction l1 as [| x l1 IH]; intros [| y m1] Heq Hnd;
    cbn in Heq; injection Heq as Hhd Htl; inversion Hnd as [| ? ? Hx Hnd']; subst.
  - apply Hx. rewrite in_app_iff. cbn. tauto.
  - apply Hx. rewrite Htl, in_app_iff. cbn. rewrite in_app_iff. cbn. tauto.
  - apply Hx. rewrite in_app_iff. cbn. rewrite in_app_iff. cbn. tauto.
  - now apply (IH m1).
Qed.

End PrecedesFacts.

Section DedupOrder.
Context {K : Type} `{EqKeyLaws K}.

(** In [dedup l], [a] comes before [b] as soon as some [a] of [l] comes
    before the first [b]. *)
Lemma dedup_precedes (l1 l2 : list K) (a b : K) :
  ~ In b l1 -> a <> b -> In b l2 -> precedes (dedup (l1 ++ a :: l2)) a b.
Proof.
  intros Hb Hab Hb2. induction l1 as [| x l1 IH]; cbn.
  - apply precedes_head, filter_In. split.
    + now apply In_dedup.
    + now apply negb_true_iff, keqb_neq.
  - assert (Hxb : negb (keqb x b) = true).
    { apply negb_true_iff, keqb_neq. intros ->. apply Hb. now left. }
    destruct (keqb_spec x a) as [-> | Hxa].
    + apply precedes_head, filter_In. split; [| exact Hxb].
      apply In_dedup, in_or_app. right. now right.
    + apply precedes_cons, precedes_filter;
        [now apply negb_true_iff, keqb_neq | exact Hxb |].
      apply IH. intros Hin. apply Hb. now right.
Qed.

End DedupOrder.

(** ** The buckets *)

Section Buckets.
Context {K X : Type} `{EqKeyLaws K} (cls : X -> K).
Implicit Types (k : K) (l : list X) (D : list K).

Lemma select_In k l (e : X) : In e (select cls k l) <-> In e l /\ cls e = k.
Proof. unfold select. now rewrite filter_In, keqb_eq. Qed.

Lemma select_app k l1 l2 :
  select cls k (l1 ++ l2) = select cls k l1 ++ select cls k l2.
Proof. apply filter_app. Qed.

Lemma select_absent k l : ~ In k (map cls l) -> select cls k l = [].
Proof.
  intros Hk. apply filter_none. intros e He. apply keqb_neq. intros <-.
  apply Hk. now apply in_map.
Qed.

Lemma tabulate_get (f : K -> list X) D k :
  dict_get (map (fun k' => (k', f k')) D) k
  = if existsb (keqb k) D then Some (f k) else None.
Proof.
  induction D as [| x D IH]; cbn; [reflexivity |].
  rewrite (keqb_sym k x).
  destruct (keqb_spec x k) as [-> | Hne]; cbn; [reflexivity | exact IH].
Qed.

Lemma tabulate_set (f g : K -> list X) D k :
  NoDup D -> (forall k', k' <> k -> g k' = f k') ->
  dict_set (map (fun k' => (k', f k')) D) k (g k)
  = map (fun k' => (k', g k')) (add_key D k).
Proof.
  intros Hnd Hg. unfold add_key.
  induction Hnd as [| x D Hx Hnd IH]; cbn; [reflexivity |].
  rewrite (keqb_sym k x).
  destruct (keqb_spec x k) as [-> | Hne]; cbn.
  - f_equal. apply map_ext_in. intros k' Hk'. rewrite Hg; congruence.
  - rewrite IH.
    destruct (existsb (keqb k) D); cbn; now rewrite (Hg x).
Qed.

(** The buckets after the scan: one per key, in the order the keys were
    met, each with its entries in the order of the scan. *)
Lemma buckets_closed l :
  fold_left (fun pbt e => append_to pbt (cls e) e) l []
  = map (fun k => (k, select cls k l)) (dedup (map cls l)).
Proof.
  induction l as [| e l IH] using rev_ind; [reflexivity |].
  rewrite fold_left_app, IH. cbn. unfold append_to.
  rewrite tabulate_get, map_app. cbn. rewrite dedup_snoc.
  set (g := fun k => select cls k (l ++ [e])).
  match goal with
  | |- dict_set _ _ ?v = _ => replace v with (g (cls e))
  end.
  - apply tabulate_set; [apply NoDup_dedup |].
    intros k' Hk'. unfold g. rewrite select_app. cbn.
    apply keqb_neq in Hk'. rewrite (keqb_sym (cls e) k'), Hk'. apply app_nil_r.
  - unfold g. rewrite select_app. cbn. rewrite keqb_refl.
    destruct (existsb (keqb (cls e)) (dedup (map cls l))) eqn:Hm; [reflexivity |].
    apply mem_not_In in Hm. rewrite In_dedup in Hm.
    now rewrite select_absent.
Qed.

End Buckets.

(** ** The output as a sequence of sorted buckets *)

Lemma NoDup_add_key {K : Type} `{EqKeyLaws K} (E : list K) (k : K) :
  NoDup E -> NoDup (add_key E k).
Proof.
  intros Hnd. unfold add_key. destruct (existsb (keqb k) E) eqn:Hk; [exact Hnd |].
  apply mem_not_In in Hk. apply NoDup_app; [exact Hnd | repeat constructor; tauto |].
  intros k' Hk' [<- | []]. contradiction.
Qed.

Lemma fold_add_key_filter {K : Type} `{EqKeyLaws K} (P : K -> bool) (l a : list K) :
  fold_left (fun E k => if P k then add_key E k else E) l (dedup a)
  = dedup (a ++ filter P l).
Proof.
  revert a. induction l as [| x l IH]; intros a; cbn.
  - now rewrite app_nil_r.
  - destruct (P x); [| apply IH].
    rewrite <- dedup_snoc, IH, <- app_assoc. reflexivity.
Qed.

Lemma NoDup_keys_filter {X Y : Type} (f : X -> Y) (g : X -> bool) (l : list X) :
  NoDup (map f l) -> NoDup (map f (filter g l)).
Proof.
  induction l as [| x l IH]; cbn; [trivial |].
  intros Hnd. inversion Hnd as [| ? ? Hx Hnd']; subst.
  destruct (g x); cbn; [| now apply IH].
  constructor; [| now apply IH].
  rewrite in_map_iff in *. intros (y & Hy & Hin). apply Hx.
  exists y. split; [exact Hy |]. now apply filter_In in Hin.
Qed.

(** In a dict, the key determines the entry. *)
Lemma NoDup_keys_inj {X Y : Type} (l : list (X * Y)) (e1 e2 : X * Y) :
  NoDup (keys l) -> In e1 l -> In e2 l -> fst e1 = fst e2 -> e1 = e2.
Proof.
  induction l as [| e l IH]; cbn; [tauto |].
  intros Hnd H1 H2 Heq. inversion Hnd as [| ? ? He Hnd']; subst.
  destruct H1 as [-> | H1], H2 as [-> | H2]; trivial.
  - exfalso. apply He. rewrite Heq. now apply in_map.
  - exfalso. apply He. rewrite <- Heq. now apply in_map.
  - now apply IH.
Qed.

Section Emission.
Variable cls : string * value -> key.
Variable paths : list (string * value).
Hypothesis paths_NoDup : NoDup (keys paths).

Let blk (k : key) : list (string * value) :=
  sorted_by_path (select cls k paths).

Lemma blk_In k e : In e (blk k) <-> In e paths /\ cls e = k.
Proof. unfold blk. now rewrite sorted_by_path_In, select_In. Qed.

Lemma blk_NoDup k : NoDup (keys (blk k)).
Proof.
  unfold blk, keys.
  eapply Permutation_NoDup.
  - apply Permutation_map. symmetry. apply sorted_by_path_perm.
  - now apply NoDup_keys_filter.
Qed.

Lemma blocks_In E e :
  In e (flat_map blk E) <-> In e paths /\ In (cls e) E.
Proof.
  rewrite in_flat_map. split.
  - intros (k & Hk & He). apply blk_In in He as [He <-]. tauto.
  - intros [He Hk]. exists (cls e). split; [exact Hk |]. now apply blk_In.
Qed.

Lemma blocks_NoDup E : NoDup E -> NoDup (keys (flat_map blk E)).
Proof.
  induction 1 as [| k E Hk Hnd IH]; cbn; [constructor |].
  unfold keys. rewrite map_app. apply NoDup_app; [apply blk_NoDup | exact IH |].
  intros p Hp Hp'. apply in_map_iff in Hp as (e & <- & He).
  apply in_map_iff in Hp' as (e' & Heq & He').
  apply blk_In in He as [He <-]. apply blocks_In in He' as [He' Hk'].
  apply Hk. now rewrite <- (NoDup_keys_inj paths e' e paths_NoDup He' He Heq).
Qed.

(** Writing the bucket of [k] appends its block, or changes nothing when
    the block is already there. *)
Lemma emit_block E k :
  NoDup E ->
  emit (select cls k paths) (flat_map blk E) = flat_map blk (add_key E k).
Proof.
  intros Hnd. unfold emit, add_key. fold (blk k).
  destruct (existsb (keqb k) E) eqn:Hk.
  - apply mem_In in Hk. apply write_all_present. intros [p v] He.
    apply In_dict_get; [now apply blocks_NoDup |].
    apply blocks_In. apply blk_In in He as [He <-]. tauto.
  - apply mem_not_In in Hk. rewrite flat_map_app. cbn. rewrite app_nil_r.
    apply write_all_fresh; [apply blk_NoDup |].
    intros p Hp Hp'. apply in_map_iff in Hp as (e & <- & He).
    apply in_map_iff in Hp' as (e' & Heq & He').
    apply blk_In in He as [He <-]. apply blocks_In in He' as [He' Hk'].
    apply Hk. now rewrite <- (NoDup_keys_inj paths e' e paths_NoDup He' He Heq).
Qed.

Lemma emit_blocks (P : key -> bool) (l E : list key) :
  NoDup E ->
  fold_left (fun np k => if P k then emit (select cls k paths) np else np)
    l (flat_map blk E)
  = flat_map blk (fold_left (fun E k => if P k then add_key E k else E) l E).
Proof.
  revert E. induction l as [| k l IH]; intros E Hnd; cbn; [reflexivity |].
  destruct (P k); [| now apply IH].
  rewrite emit_block by exact Hnd. now apply IH, NoDup_add_key.
Qed.

(** A sorted block filed again under its own key is itself. *)
Lemma select_blocks E k :
  NoDup E -> In k E -> select cls k (flat_map blk E) = blk k.
Proof.
  induction 1 as [| x E Hx Hnd IH]; [cbn; tauto |].
  intros Hk. change (flat_map blk (x :: E)) with (blk x ++ flat_map blk E).
  rewrite select_app.
  destruct (keqb_spec x k) as [-> | Hne].
  - rewrite (select_absent cls k (flat_map blk E)), app_nil_r.
    + apply filter_all. intros e He. apply keqb_eq. now apply blk_In in He.
    + rewrite in_map_iff. intros (e & <- & He).
      apply blocks_In in He. tauto.
  - rewrite IH by (destruct Hk; tauto). unfold select at 1.
    rewrite filter_none; [reflexivity |].
    intros e He. apply keqb_neq. apply blk_In in He. intros Heq.
    apply Hne. now rewrite <- Heq.
Qed.

(** The keys are met in the order of the blocks. *)
Lemma found_blocks E :
  NoDup E -> (forall k, In k E -> In k (map cls paths)) ->
  dedup (map cls (flat_map blk E)) = E.
Proof.
  induction 1 as [| x E Hx Hnd IH]; cbn; [reflexivity |].
  intros Hpres. rewrite map_app, dedup_app, IH by (intros; apply Hpres; now right).
  assert (Hx' : In x (map cls paths)) by (apply Hpres; now left).
  apply in_map_iff in Hx' as (e & <- & He).
  assert (Hall : forall k, In k (map cls (blk (cls e))) -> k = cls e).
  { intros k Hk. apply in_map_iff in Hk as (e' & <- & He').
    now apply blk_In in He'. }
  assert (Hne : In (cls e) (map cls (blk (cls e)))).
  { apply in_map. now apply blk_In. }
  replace (dedup (map cls (blk (cls e)))) with [cls e].
  - cbn. f_equal. apply filter_all. intros k Hk.
    apply negb_true_iff, mem_not_In. intros Hin. apply Hall in Hin.
    now subst.
  - destruct (map cls (blk (cls e))) as [| k l] eqn:Hl; [destruct Hne |].
    cbn. assert (Hk : k = cls e) by (apply Hall; now left). subst k.
    f_equal. symmetry.
    apply filter_none. intros k' Hk'. apply -> In_dedup in Hk'.
    assert (Hk : k' = cls e) by (apply Hall; now right). subst k'.
    apply negb_false_iff, keqb_refl.
Qed.

End Emission.

(** ** The loops of the function *)

Lemma comprehension_Ok_Forall2 {X Y : Type} (f : X -> result Y) xs ys :
  comprehension f xs = Ok ys -> Forall2 (fun x y => f x = Ok y) xs ys.
Proof.
  revert ys. induction xs as [| x xs IH]; cbn; intros ys.
  - intros [= <-]. constructor.
  - destruct (f x) as [y | e] eqn:Hx; cbn; [| discriminate].
    destruct (comprehension f xs) as [ys' | e]; cbn; [| discriminate].
    intros [= <-]. constructor; auto.
Qed.

Lemma comprehension_Forall_Ok {X Y : Type} (f : X -> result Y) (g : X -> Y) xs :
  Forall (fun x => f x = Ok (g x)) xs -> comprehension f xs = Ok (map g xs).
Proof.
  induction 1 as [| x xs Hx _ IH]; cbn; [reflexivity |].
  now rewrite Hx, IH.
Qed.

Lemma hash_keys_declared tag_order ks :
  comprehension hash_key tag_order = Ok ks -> ks = declared tag_order.
Proof.
  intros Hc. apply comprehension_Ok_Forall2 in Hc.
  induction Hc as [| tag k tags ks Hk _ IH]; cbn; [reflexivity |].
  now rewrite Hk, IH.
Qed.

Lemma tags_of_paths paths bs :
  comprehension (fun e => bucket_of (snd e)) paths = Ok bs ->
  Forall (fun e => bucket_of (snd e) = Ok (tag_of e)) paths.
Proof.
  intros Hc. apply comprehension_Ok_Forall2 in Hc.
  induction Hc as [| e k es ks Hk _ IH]; constructor; [| exact IH].
  unfold tag_of. now rewrite Hk.
Qed.

Lemma list_contains_declared tag_order ks k :
  comprehension hash_key tag_order = Ok ks ->
  list_contains tag_order k = existsb (keqb k) ks.
Proof.
  intros Hc. apply comprehension_Ok_Forall2 in Hc. unfold list_contains.
  induction Hc as [| tag k' tags ks Hk _ IH]; cbn; [reflexivity |].
  now rewrite Hk, IH, (keqb_sym k k').
Qed.

(** Lines 22-41 raise where the scan of a PathItem raises, and otherwise
    build the buckets. *)
Lemma group_paths_eq paths :
  group_paths paths
  = match comprehension (fun e => bucket_of (snd e)) paths with
    | Ok _ => Ok (map (fun k => (k, select tag_of k paths))
                    (dedup (map tag_of paths)))
    | Raise e => Raise e
    end.
Proof.
  rewrite <- buckets_closed. unfold group_paths. generalize (@nil (key * list (string * value))).
  induction paths as [| e paths IH]; intros acc; cbn; [reflexivity |].
  unfold tag_of at 2. destruct (bucket_of (snd e)) as [k | err]; cbn; [| reflexivity].
  rewrite IH. now destruct (comprehension _ paths).
Qed.

(** Lines 47-52 raise at the first declared name that is not hashable. *)
Lemma emit_declared_eq paths_by_tag tag_order :
  emit_declared paths_by_tag tag_order
  = match comprehension hash_key tag_order with
    | Ok ks =>
        Ok (fold_left (fun np k => match dict_get paths_by_tag k with
                                   | Some bucket => emit bucket np
                                   | None => np
                                   end) ks [])
    | Raise e => Raise e
    end.
Proof.
  unfold emit_declared. generalize (@nil (string * value)).
  induction tag_order as [| tag tags IH]; intros acc; cbn; [reflexivity |].
  destruct (hash_key tag) as [k | err]; cbn; [| reflexivity].
  rewrite IH. now destruct (comprehension hash_key tags).
Qed.

Lemma fold_left_ext_in {S X : Type} (f g : S -> X -> S) (l : list X) (s : S) :
  (forall s x, In x l -> f s x = g s x) -> fold_left f l s = fold_left g l s.
Proof.
  revert s. induction l as [| x l IH]; intros s Hfg; cbn; [reflexivity |].
  rewrite Hfg by now left. apply IH. intros s' y Hy. apply Hfg. now right.
Qed.

Lemma fold_left_map {S X Y : Type} (f : S -> Y -> S) (g : X -> Y) (l : list X) (s : S) :
  fold_left f (map g l) s = fold_left (fun s x => f s (g x)) l s.
Proof.
  revert s. induction l as [| x l IH]; intros s; cbn; [reflexivity | apply IH].
Qed.

Section Order.
Variables (ks : list key) (paths : list (string * value)).

Lemma emission_order_NoDup : NoDup (emission_order ks paths).
Proof. apply NoDup_dedup. Qed.

(** Every bucket is written, and only buckets are. *)
Lemma emission_order_In k :
  In k (emission_order ks paths) <-> In k (map tag_of paths).
Proof.
  unfold emission_order. rewrite In_dedup, !in_app_iff, !filter_In.
  rewrite andb_true_iff, !negb_true_iff, !mem_In, mem_not_In, !In_dedup, keqb_neq.
  cbn [In].
  destruct (keqb_spec k untagged) as [Heq | Hne];
    destruct (in_dec (fun a b => reflect_dec _ _ (keqb_spec a b)) k ks);
    intuition congruence.
Qed.

End Order.

(** ** The returned mapping, in closed form *)

Section ClosedForm.
Variable paths : list (string * value).
Hypothesis paths_NoDup : NoDup (keys paths).

Let found : list key := dedup (map tag_of paths).
Let paths_by_tag : list (key * list (string * value)) :=
  map (fun k => (k, select tag_of k paths)) found.

(** A loop that writes the buckets of the keys of [l] that pass [P]. *)
Lemma write_buckets (P : key -> bool) (l a : list key)
  (step : list (string * value) -> key -> list (string * value)) :
  (forall np k, step np k = if P k then emit (select tag_of k paths) np else np) ->
  fold_left step l (flat_map (block paths) (dedup a))
  = flat_map (block paths) (dedup (a ++ filter P l)).
Proof.
  intros Hstep.
  rewrite (fold_left_ext_in step
             (fun np k => if P k then emit (select tag_of k paths) np else np))
    by (intros; apply Hstep).
  unfold block.
  rewrite (emit_blocks tag_of paths paths_NoDup P l (dedup a) (NoDup_dedup a)).
  now rewrite fold_add_key_filter.
Qed.

Lemma closed_form tag_order ks :
  comprehension hash_key tag_order = Ok ks ->
  emit_unlisted paths_by_tag tag_order
    (emit_untagged paths_by_tag
       (fold_left (fun np k => match dict_get paths_by_tag k with
                               | Some bucket => emit bucket np
                               | None => np
                               end) ks []))
  = flat_map (block paths) (emission_order ks paths).
Proof.
  intros Hks.
  change (@nil (string * value)) with (flat_map (block paths) (dedup [])).
  rewrite (write_buckets (fun k => existsb (keqb k) found)).
  2:{ intros np k. unfold paths_by_tag. rewrite tabulate_get.
      now destruct (existsb (keqb k) found). }
  change (emit_untagged paths_by_tag ?acc)
    with (fold_left (fun np k => match dict_get paths_by_tag k with
                                 | Some bucket => emit bucket np
                                 | None => np
                                 end) [untagged] acc).
  rewrite (write_buckets (fun k => existsb (keqb k) found)).
  2:{ intros np k. unfold paths_by_tag. rewrite tabulate_get.
      now destruct (existsb (keqb k) found). }
  unfold emit_unlisted, paths_by_tag. rewrite fold_left_map. cbn [fst snd].
  rewrite (write_buckets
             (fun k => negb (existsb (keqb k) ks) && negb (keqb k untagged))).
  2:{ intros np k. now rewrite (list_contains_declared tag_order ks k Hks). }
  unfold emission_order. fold found. cbn [app]. now rewrite <- app_assoc.
Qed.

End ClosedForm.

(** The function, step by step: it returns when [tags] and [paths] have the
    expected shape, every PathItem can be scanned and every declared name
    is hashable, and then it returns the sorted buckets in emission order. *)
Lemma reorganize_eq api_spec tag_order paths :
  tag_order_of api_spec = Ok tag_order ->
  getitem_str api_spec "paths" = Ok (VDict paths) ->
  NoDup (keys paths) ->
  reorganize_paths_by_tags api_spec
  = match comprehension (fun e => bucket_of (snd e)) paths with
    | Raise e => Raise e
    | Ok _ =>
        match comprehension hash_key tag_order with
        | Raise e => Raise e
        | Ok ks => Ok (flat_map (block paths) (emission_order ks paths))
        end
    end.
Proof.
  intros Hto Hp Hnd. unfold reorganize_paths_by_tags.
  rewrite Hto, Hp. cbn. rewrite group_paths_eq.
  destruct (comprehension _ paths) as [bs | e]; cbn; [| reflexivity].
  rewrite emit_declared_eq.
  destruct (comprehension hash_key tag_order) as [ks | e] eqn:Hks; cbn;
    [| reflexivity].
  f_equal. now apply closed_form.
Qed.

(** What a returned mapping tells about the run. *)
Lemma reorganize_Ok api_spec paths out :
  getitem_str api_spec "paths" = Ok (VDict paths) ->
  NoDup (keys paths) ->
  reorganize_paths_by_tags api_spec = Ok out ->
  exists tag_order,
    tag_order_of api_spec = Ok tag_order /\
    comprehension hash_key tag_order = Ok (declared tag_order) /\
    Forall (fun e => bucket_of (snd e) = Ok (tag_of e)) paths /\
    out = flat_map (block paths) (emission_order (declared tag_order) paths).
Proof.
  intros Hp Hnd Hout.
  destruct (tag_order_of api_spec) as [tag_order | e] eqn:Hto.
  2:{ unfold reorganize_paths_by_tags in Hout. now rewrite Hto in Hout. }
  rewrite (reorganize_eq api_spec tag_order paths Hto Hp Hnd) in Hout.
  destruct (comprehension _ paths) as [bs | e] eqn:Hbs; [| discriminate].
  destruct (comprehension hash_key tag_order) as [ks | e] eqn:Hks; [| discriminate].
  injection Hout as <-. exists tag_order.
  rewrite <- (hash_keys_declared tag_order ks Hks).
  repeat split; trivial. now apply tags_of_paths with bs.
Qed.

(** ** Consequences of the closed form *)

Lemma distinct_NoDup {K : Type} `{EqKeyLaws K} (l : list K) :
  distinct l = true -> NoDup l.
Proof.
  induction l as [| x l IH]; cbn; [constructor |].
  rewrite andb_true_iff, negb_true_iff, mem_not_In. intros [Hx Hl].
  constructor; auto.
Qed.

Lemma flat_map_ext_in {X Y : Type} (f g : X -> list Y) (l : list X) :
  (forall x, In x l -> f x = g x) -> flat_map f l = flat_map g l.
Proof.
  induction l as [| x l IH]; cbn; [reflexivity |].
  intros Hfg. rewrite Hfg by now left. f_equal. apply IH.
  intros y Hy. apply Hfg. now right.
Qed.

Lemma blocks_precedes (paths : list (string * value)) (E : list key)
  (A B : key) (e1 e2 : string * value) :
  precedes E A B -> In e1 (block paths A) -> In e2 (block paths B) ->
  precedes (flat_map (block paths) E) e1 e2.
Proof.
  intros (E1 & E2 & E3 & ->) H1 H2.
  rewrite flat_map_app. apply precedes_app_r. cbn.
  apply precedes_across; [exact H1 |].
  rewrite flat_map_app, in_app_iff. right. cbn. rewrite in_app_iff. now left.
Qed.

Section EmissionOrder.
Variables (ks : list key) (paths : list (string * value)).

(** A tag with a declaration before every declaration of [B] has its
    bucket written before the bucket of [B]. *)
Lemma declared_first (l1 l2 : list key) (A B : key) :
  ks = l1 ++ A :: l2 -> ~ In B l1 -> A <> B ->
  In A (map tag_of paths) -> In B (map tag_of paths) ->
  precedes (emission_order ks paths) A B.
Proof.
  intros -> HB Hne HA HB'.
  assert (HBE := proj2 (emission_order_In (l1 ++ A :: l2) paths B) HB').
  unfold emission_order in *. rewrite filter_app in *. cbn [filter] in *.
  assert (Hm : existsb (keqb A) (dedup (map tag_of paths)) = true)
    by now apply mem_In, In_dedup.
  rewrite Hm in *. rewrite <- app_assoc in *. rewrite <- app_comm_cons in *.
  apply dedup_precedes; trivial.
  - rewrite filter_In. tauto.
  - apply -> In_dedup in HBE. rewrite in_app_iff in HBE. cbn [In] in HBE.
    rewrite filter_In in HBE. destruct HBE as [[? _] | [? | ?]]; tauto.
Qed.

(** The bucket of [untagged] is written before those of the tags that are
    not declared. *)
Lemma untagged_before_unlisted (B : key) :
  ~ In B ks -> B <> untagged ->
  In untagged (map tag_of paths) -> In B (map tag_of paths) ->
  precedes (emission_order ks paths) untagged B.
Proof.
  intros HB Hne HU HB'. unfold emission_order. cbn [filter].
  assert (Hm : existsb (keqb untagged) (dedup (map tag_of paths)) = true)
    by now apply mem_In, In_dedup.
  rewrite Hm. cbn [app]. apply dedup_precedes.
  - rewrite filter_In. tauto.
  - congruence.
  - rewrite filter_In, In_dedup, andb_true_iff, !negb_true_iff.
    rewrite mem_not_In, keqb_neq. tauto.
Qed.

End EmissionOrder.

(** ** A run that returns *)

Section Run.
Variables (api_spec : value) (tag_order : list value).
Variables (paths out : list (string * value)).
Hypothesis Htags : tag_order_of api_spec = Ok tag_order.
Hypothesis Hpaths : getitem_str api_spec "paths" = Ok (VDict paths).
Hypothesis Hunique : NoDup (keys paths).
Hypothesis Hout : reorganize_paths_by_tags api_spec = Ok out.

Lemma run_closed :
  comprehension hash_key tag_order = Ok (declared tag_order) /\
  Forall (fun e => bucket_of (snd e) = Ok (tag_of e)) paths /\
  out = flat_map (block paths) (emission_order (declared tag_order) paths).
Proof.
  destruct (reorganize_Ok api_spec paths out Hpaths Hunique Hout)
    as (tag_order' & Hto & Hks & Hbs & Heq).
  rewrite Htags in Hto. injection Hto as <-. auto.
Qed.

Lemma run_bucket e k :
  In e paths -> bucket_of (snd e) = Ok k <-> tag_of e = k.
Proof.
  intros He. destruct run_closed as (_ & Hbs & _).
  rewrite Forall_forall in Hbs. rewrite (Hbs e He). split; congruence.
Qed.

Lemma run_before p sp q sq A B :
  In (p, sp) paths -> In (q, sq) paths ->
  bucket_of sp = Ok A -> bucket_of sq = Ok B ->
  precedes (emission_order (declared tag_order) paths) A B ->
  precedes (keys out) p q.
Proof.
  intros Hp Hq HA HB HAB.
  apply (run_bucket (p, sp)) in HA; [| exact Hp].
  apply (run_bucket (q, sq)) in HB; [| exact Hq].
  destruct run_closed as (_ & _ & Heq). rewrite Heq.
  apply (precedes_map fst _ (p, sp) (q, sq)).
  apply blocks_precedes with A B; [exact HAB | |]; apply blk_In; auto.
Qed.

End Run.

Section RunAny.
Variables (api_spec : value) (paths out : list (string * value)).
Hypothesis Hpaths : getitem_str api_spec "paths" = Ok (VDict paths).
Hypothesis Hunique : NoDup (keys paths).
Hypothesis Hout : reorganize_paths_by_tags api_spec = Ok out.

Lemma run_some_tags : exists tag_order, tag_order_of api_spec = Ok tag_order.
Proof.
  destruct (reorganize_Ok api_spec paths out Hpaths Hunique Hout)
    as (tag_order & Hto & _). now exists tag_order.
Qed.

Lemma out_In e : In e out <-> In e paths.
Proof.
  destruct run_some_tags as (tag_order & Hto).
  destruct (run_closed api_spec tag_order paths out Hto Hpaths Hunique Hout)
    as (_ & _ & Heq).
  rewrite Heq.
  rewrite (blocks_In tag_of paths), emission_order_In.
  split; [tauto |]. intros He. split; [exact He | now apply in_map].
Qed.

Lemma out_NoDup : NoDup (keys out).
Proof.
  destruct run_some_tags as (tag_order & Hto).
  destruct (run_closed api_spec tag_order paths out Hto Hpaths Hunique Hout)
    as (_ & _ & Heq).
  rewrite Heq.
  apply (blocks_NoDup tag_of paths Hunique), emission_order_NoDup.
Qed.

Lemma out_perm : Permutation out paths.
Proof.
  apply NoDup_Permutation.
  - apply (NoDup_map_inv fst), out_NoDup.
  - apply (NoDup_map_inv fst), Hunique.
  - apply out_In.
Qed.

(** The output around the block of one key. *)
Lemma out_split k :
  exists before after,
    out = before ++ block paths k ++ after /\
    forall e, In e (before ++ after) -> In e paths /\ tag_of e <> k.
Proof.
  destruct run_some_tags as (tag_order & Hto).
  destruct (run_closed api_spec tag_order paths out Hto Hpaths Hunique Hout)
    as (_ & _ & Heq).
  rewrite Heq.
  set (E := emission_order (declared tag_order) paths).
  assert (HE : NoDup E) by apply emission_order_NoDup.
  destruct (in_dec (fun a b => reflect_dec _ _ (keqb_spec a b)) k E) as [Hk | Hk].
  - apply in_split in Hk as (E1 & E2 & HEeq). rewrite HEeq in *.
    exists (flat_map (block paths) E1), (flat_map (block paths) E2). split.
    + now rewrite flat_map_app.
    + apply NoDup_remove_2 in HE. intros e He.
      rewrite <- flat_map_app in He.
      apply (blocks_In tag_of paths) in He as [He Ht]. split; [exact He |].
      intros <-. contradiction.
  - exists (flat_map (block paths) E), []. split.
    + assert (Hb : block paths k = []).
      { unfold block. rewrite select_absent; [reflexivity |].
        unfold E in Hk. now rewrite emission_order_In in Hk. }
      now rewrite Hb, app_nil_r.
    + intros e He. rewrite app_nil_r in He.
      apply (blocks_In tag_of paths) in He as [He Ht]. split; [exact He |].
      intros <-. contradiction.
Qed.

End RunAny.

(** * The properties of the specification *)

(** ** Completeness and content *)

(** C1: the returned mapping has exactly the path keys of the input
    [paths] mapping, each of them once. *)
Theorem output_keys_complete api_spec paths out :
  getitem_str api_spec "paths" = Ok (VDict paths) ->
  NoDup (keys paths) ->
  reorganize_paths_by_tags api_spec = Ok out ->
  NoDup (keys out) /\
  Permutation (keys out) (keys paths) /\
  (forall p, In p (keys out) <-> In p (keys paths)).
Proof.
  intros Hp Hu Hout.
  assert (Hperm : Permutation (keys out) (keys paths))
    by (apply Permutation_map, (out_perm api_spec paths out Hp Hu Hout)).
  split; [apply (out_NoDup api_spec paths out Hp Hu Hout) |].
  split; [exact Hperm |].
  intros p. split; apply Permutation_in; [| symmetry]; exact Hperm.
Qed.

Lemma output_keys_complete_witness :
  reorganize_paths_by_tags petstore = Ok petstore_sorted /\
  NoDup (keys petstore_sorted) /\
  Permutation (keys petstore_sorted) (keys petstore_paths) /\
  (forall p, In p (keys petstore_sorted) <-> In p (keys petstore_paths)).
Proof.
  split; [reflexivity |].
  apply (output_keys_complete petstore petstore_paths petstore_sorted).
  - reflexivity.
  - apply distinct_NoDup. reflexivity.
  - reflexivity.
Defined.

(** C2: every path has in the returned mapping the PathItem it has in the
    input; the function changes positions only. *)
Theorem output_items_unchanged api_spec paths out :
  getitem_str api_spec "paths" = Ok (VDict paths) ->
  NoDup (keys paths) ->
  reorganize_paths_by_tags api_spec = Ok out ->
  forall p, dict_get out p = dict_get paths p.
Proof.
  intros Hp Hu Hout p.
  assert (Hn := out_NoDup api_spec paths out Hp Hu Hout).
  assert (Hin := out_In api_spec paths out Hp Hu Hout).
  destruct (dict_get paths p) as [v |] eqn:Hget.
  - apply In_dict_get; [exact Hn |]. apply Hin. now apply dict_get_Some_In.
  - apply dict_get_None. apply dict_get_None in Hget.
    intros Hk. apply Hget. apply in_map_iff in Hk as (e & <- & He).
    apply in_map. now apply Hin.
Qed.

Lemma output_items_unchanged_witness :
  dict_get petstore_sorted "/health" = dict_get petstore_paths "/health".
Proof.
  apply (output_items_unchanged petstore petstore_paths petstore_sorted).
  - reflexivity.
  - apply distinct_NoDup. reflexivity.
  - reflexivity.
Defined.

(** ** The primary tag *)

(** The scan passes over the entries that do not qualify. *)
Lemma find_primary_tag_skip before rest :
  Forall (fun e => qualifies e = false) before ->
  find_primary_tag (before ++ rest) = find_primary_tag rest.
Proof.
  induction 1 as [| [method v] before Hq _ IH]; cbn; [reflexivity |].
  unfold qualifies in Hq. cbn in Hq. destruct v; trivial.
  destruct (dict_get d "tags") as [tags |]; trivial.
  now rewrite Hq.
Qed.

(** The scan stops at the first entry that qualifies. *)
Lemma find_primary_tag_stop before method op after tags :
  Forall (fun e => qualifies e = false) before ->
  dict_get op "tags" = Some tags -> truthy tags = true ->
  find_primary_tag (before ++ (method, VDict op) :: after) = getitem_0 tags.
Proof.
  intros Hb Ht Htr. rewrite find_primary_tag_skip by exact Hb.
  cbn. now rewrite Ht, Htr.
Qed.

(** C3, as the code has it: the bucket of a path is decided by the first
    entry, in key order, that is a mapping with a non-empty [tags] field.
    The entries before it, among them those with an empty [tags], do not
    stop the scan, and the entries after it are not consulted.  The first
    element of its [tags] sequence is the primary tag when it is truthy;
    a falsy first element, such as the empty string, sends the path to
    "untagged", and so does a PathItem without a qualifying entry. *)
Theorem primary_tag_of_item before :
  Forall (fun e => qualifies e = false) before ->
  bucket_of (VDict before) = Ok untagged /\
  forall method op after t ts,
    dict_get op "tags" = Some (VList (t :: ts)) ->
    bucket_of (VDict (before ++ (method, VDict op) :: after))
    = if truthy t then hash_key t else Ok untagged.
Proof.
  intros Hb. split.
  - unfold bucket_of. cbn.
    rewrite <- (app_nil_r before), find_primary_tag_skip by exact Hb.
    reflexivity.
  - intros method op after t ts Ht. unfold bucket_of. cbn.
    rewrite (find_primary_tag_stop before method op after (VList (t :: ts)))
      by (trivial; reflexivity).
    reflexivity.
Qed.

Lemma primary_tag_of_item_witness :
  bucket_of (VDict [("summary", VStr "orders"); ("get", operation [])])
  = Ok untagged /\
  bucket_of (VDict mixed_item) = Ok (KStr "pets").
Proof.
  destruct (primary_tag_of_item [("summary", VStr "orders"); ("get", operation [])])
    as [Hnone Hfirst].
  - repeat constructor.
  - split; [exact Hnone |].
    apply (Hfirst "post" [("tags", VList [VStr "pets"; VStr "store"])]
             [("put", operation ["store"])] (VStr "pets") [VStr "store"]).
    reflexivity.
Defined.

(** C3 as stated fails: the only operation of [empty_tag_item] has the
    non-empty [tags] sequence [[""]], whose first element is the empty
    string, and the path goes to "untagged". *)
Lemma empty_first_tag_counterexample :
  qualifies ("get", operation [""]) = true /\
  find_primary_tag empty_tag_item = Ok (VStr "") /\
  bucket_of (VDict empty_tag_item) = Ok untagged /\
  bucket_of (VDict empty_tag_item) <> hash_key (VStr "").
Proof. repeat split. discriminate. Qed.

(** ** The order of the buckets *)

(** C4: when [A] is declared before [B], every path of [A] precedes every
    path of [B].  A name that is declared more than once counts where it
    is declared first: [B] is not declared in [l1], the names before the
    declaration of [A], and is declared in [l2], the names after it. *)
Theorem declared_order_respected
  api_spec tag_order paths out l1 l2 A B p sp q sq :
  tag_order_of api_spec = Ok tag_order ->
  getitem_str api_spec "paths" = Ok (VDict paths) ->
  NoDup (keys paths) ->
  reorganize_paths_by_tags api_spec = Ok out ->
  declared tag_order = l1 ++ A :: l2 -> ~ In B l1 -> In B l2 -> A <> B ->
  In (p, sp) paths -> bucket_of sp = Ok A ->
  In (q, sq) paths -> bucket_of sq = Ok B ->
  precedes (keys out) p q.
Proof.
  intros Hto Hp Hu Hout Hks HB1 _ Hne Hpin HA Hqin HB.
  apply (run_before api_spec tag_order paths out Hto Hp Hu Hout p sp q sq A B);
    trivial.
  apply (declared_first _ paths l1 l2); trivial.
  - apply (run_bucket api_spec tag_order paths out Hto Hp Hu Hout (p, sp)) in HA;
      [| exact Hpin].
    rewrite <- HA. now apply in_map.
  - apply (run_bucket api_spec tag_order paths out Hto Hp Hu Hout (q, sq)) in HB;
      [| exact Hqin].
    rewrite <- HB. now apply in_map.
Qed.

Lemma declared_order_respected_witness :
  precedes (keys petstore_sorted) "/pets/{id}" "/store/order".
Proof.
  apply (declared_order_respected petstore
           [VStr "pets"; VStr "store"] petstore_paths petstore_sorted
           [] [KStr "store"] (KStr "pets") (KStr "store")
           "/pets/{id}" (VDict [("get", operation ["pets"])])
           "/store/order" (VDict [("get", operation ["store"])])).
  - reflexivity.
  - reflexivity.
  - apply distinct_NoDup. reflexivity.
  - reflexivity.
  - reflexivity.
  - simpl. tauto.
  - simpl. tauto.
  - discriminate.
  - simpl. tauto.
  - reflexivity.
  - simpl. tauto.
  - reflexivity.
Defined.

(** A tag that is declared twice is written where it is declared first. *)
Lemma twice_declared_first_declaration :
  reorganize_paths_by_tags twice_declared
  = Ok [("/store", VDict [("get", operation ["store"])]);
        ("/pets", VDict [("get", operation ["pets"])])].
Proof. reflexivity. Qed.

(** C5: the paths of one primary tag form one block of the output, sorted
    by path string, whatever the key order of the input [paths]. *)
Theorem buckets_contiguous_and_sorted api_spec paths out k :
  getitem_str api_spec "paths" = Ok (VDict paths) ->
  NoDup (keys paths) ->
  reorganize_paths_by_tags api_spec = Ok out ->
  exists before bucket after,
    out = before ++ bucket ++ after /\
    (forall e, In e bucket <-> In e paths /\ bucket_of (snd e) = Ok k) /\
    (forall e, In e (before ++ after) -> bucket_of (snd e) <> Ok k) /\
    StronglySorted path_le bucket.
Proof.
  intros Hp Hu Hout.
  destruct (run_some_tags api_spec paths out Hp Hu Hout) as (tag_order & Hto).
  destruct (out_split api_spec paths out Hp Hu Hout k)
    as (before & after & Heq & Hrest).
  exists before, (block paths k), after.
  split; [exact Heq |]. split; [| split].
  - intros e. unfold block. rewrite blk_In. split; intros [He Hk].
    + split; [exact He |].
      now apply (run_bucket api_spec tag_order paths out Hto Hp Hu Hout).
    + split; [exact He |].
      now apply (run_bucket api_spec tag_order paths out Hto Hp Hu Hout).
  - intros e He Hk. destruct (Hrest e He) as [Hin Hne]. apply Hne.
    now apply (run_bucket api_spec tag_order paths out Hto Hp Hu Hout).
  - apply sorted_by_path_sorted.
Qed.

Lemma buckets_contiguous_and_sorted_witness :
  exists before bucket after,
    petstore_sorted = before ++ bucket ++ after /\
    (forall e, In e bucket <->
               In e petstore_paths /\ bucket_of (snd e) = Ok (KStr "pets")) /\
    (forall e, In e (before ++ after) -> bucket_of (snd e) <> Ok (KStr "pets")) /\
    StronglySorted path_le bucket.
Proof.
  apply (buckets_contiguous_and_sorted petstore petstore_paths petstore_sorted).
  - reflexivity.
  - apply distinct_NoDup. reflexivity.
  - reflexivity.
Defined.

(** C6, as the code has it: the paths of "untagged" follow the paths of
    every declared tag that has a declaration before the first declaration
    of "untagged", hence of every declared tag when "untagged" is not a
    declared name, and they precede the paths of every tag that is not
    declared.  When "untagged" is a declared name they also precede the
    paths of the declared tags that have no declaration before it. *)
Theorem untagged_placement api_spec tag_order paths out p sp :
  tag_order_of api_spec = Ok tag_order ->
  getitem_str api_spec "paths" = Ok (VDict paths) ->
  NoDup (keys paths) ->
  reorganize_paths_by_tags api_spec = Ok out ->
  In (p, sp) paths -> bucket_of sp = Ok untagged ->
  (forall l1 l2 B q sq,
     declared tag_order = l1 ++ B :: l2 -> ~ In untagged l1 -> B <> untagged ->
     In (q, sq) paths -> bucket_of sq = Ok B ->
     precedes (keys out) q p) /\
  (forall B q sq,
     ~ In B (declared tag_order) -> B <> untagged ->
     In (q, sq) paths -> bucket_of sq = Ok B ->
     precedes (keys out) p q) /\
  (forall l1 l2 B q sq,
     declared tag_order = l1 ++ untagged :: l2 -> ~ In B l1 -> B <> untagged ->
     In (q, sq) paths -> bucket_of sq = Ok B ->
     precedes (keys out) p q).
Proof.
  intros Hto Hp Hu Hout Hpin HU.
  assert (Hrun := run_bucket api_spec tag_order paths out Hto Hp Hu Hout).
  assert (Hbefore := run_before api_spec tag_order paths out Hto Hp Hu Hout).
  assert (HU' : In untagged (map tag_of paths)).
  { apply (Hrun (p, sp)) in HU; [| exact Hpin]. rewrite <- HU. now apply in_map. }
  assert (Hpresent : forall B q sq, In (q, sq) paths -> bucket_of sq = Ok B ->
                                    In B (map tag_of paths)).
  { intros B q sq Hqin HB. apply (Hrun (q, sq)) in HB; [| exact Hqin].
    rewrite <- HB. now apply in_map. }
  split; [| split].
  - intros l1 l2 B q sq Hks Hnot Hne Hqin HB.
    apply (Hbefore q sq p sp B untagged); trivial.
    apply (declared_first _ paths l1 l2); trivial.
    now apply (Hpresent B q sq).
  - intros B q sq Hnot Hne Hqin HB.
    apply (Hbefore p sp q sq untagged B); trivial.
    apply untagged_before_unlisted; trivial.
    now apply (Hpresent B q sq).
  - intros l1 l2 B q sq Hks Hnot Hne Hqin HB.
    apply (Hbefore p sp q sq untagged B); trivial.
    apply (declared_first _ paths l1 l2); trivial; [congruence |].
    now apply (Hpresent B q sq).
Qed.

Lemma untagged_placement_witness :
  precedes (keys petstore_sorted) "/store/order" "/health" /\
  precedes (keys petstore_sorted) "/health" "/admin" /\
  precedes (keys untagged_in_the_middle_sorted) "/beta" "/zeta" /\
  precedes (keys untagged_in_the_middle_sorted) "/zeta" "/gamma".
Proof.
  destruct (untagged_placement petstore [VStr "pets"; VStr "store"]
              petstore_paths petstore_sorted
              "/health" (VDict [("get", operation [])]))
    as (Hdeclared & Hunlisted & _).
  1-4: try reflexivity. 1: apply distinct_NoDup; reflexivity.
  1: simpl; tauto. 1: reflexivity.
  destruct (untagged_placement untagged_in_the_middle
              [VStr "pets"; VStr "untagged"; VStr "store"]
              untagged_in_the_middle_paths untagged_in_the_middle_sorted
              "/zeta" (VDict [("get", operation [])]))
    as (Hearlier & _ & Hlater).
  1-4: try reflexivity. 1: apply distinct_NoDup; reflexivity.
  1: simpl; tauto. 1: reflexivity.
  split; [| split; [| split]].
  - apply (Hdeclared [KStr "pets"] [] (KStr "store") "/store/order"
             (VDict [("get", operation ["store"])])).
    + reflexivity.
    + simpl. intros [H | []]. discriminate H.
    + discriminate.
    + simpl. tauto.
    + reflexivity.
  - apply (Hunlisted (KStr "admin") "/admin" (VDict [("get", operation ["admin"])])).
    + simpl. intros [H | [H | []]]; discriminate H.
    + discriminate.
    + simpl. tauto.
    + reflexivity.
  - apply (Hearlier [] [untagged; KStr "store"] (KStr "pets") "/beta"
             (VDict [("get", operation ["pets"])])).
    + reflexivity.
    + simpl. tauto.
    + discriminate.
    + simpl. tauto.
    + reflexivity.
  - apply (Hlater [KStr "pets"] [KStr "store"] (KStr "store") "/gamma"
             (VDict [("get", operation ["store"])])).
    + reflexivity.
    + simpl. intros [H | []]. discriminate H.
    + discriminate.
    + simpl. tauto.
    + reflexivity.
Defined.

(** C6 as stated fails when "untagged" is a declared name: in
    [untagged_declared] the path "/zeta" has no tag, "/beta" has the
    declared tag "pets", and "/zeta" comes first. *)
Lemma untagged_declared_counterexample :
  tag_order_of untagged_declared = Ok [VStr "untagged"; VStr "pets"] /\
  bucket_of (VDict [("get", operation [])]) = Ok untagged /\
  bucket_of (VDict [("get", operation ["pets"])]) = Ok (KStr "pets") /\
  In (KStr "pets") (declared [VStr "untagged"; VStr "pets"]) /\
  reorganize_paths_by_tags untagged_declared
  = Ok [("/alpha", VDict [("get", operation ["untagged"])]);
        ("/zeta", VDict [("get", operation [])]);
        ("/beta", VDict [("get", operation ["pets"])])] /\
  ~ precedes ["/alpha"; "/zeta"; "/beta"] "/beta" "/zeta".
Proof.
  repeat (split; [reflexivity |]).
  split; [simpl; tauto |]. split; [reflexivity |].
  apply precedes_asym.
  - apply distinct_NoDup. reflexivity.
  - now exists ["/alpha"], [], [].
Qed.

(** ** A second pass *)

Lemma dict_get_set_eq {K V : Type} `{EqKeyLaws K} (d : list (K * V)) k v :
  dict_get (dict_set d k v) k = Some v.
Proof.
  induction d as [| [k' v'] d IH]; cbn.
  - now rewrite keqb_refl.
  - destruct (keqb k' k) eqn:Hk; cbn; now rewrite Hk.
Qed.

Lemma dict_get_set_neq {K V : Type} `{EqKeyLaws K} (d : list (K * V)) k k' v :
  k <> k' -> dict_get (dict_set d k v) k' = dict_get d k'.
Proof.
  intros Hne. induction d as [| [x w] d IH]; cbn.
  - apply keqb_neq in Hne. now rewrite Hne.
  - destruct (keqb_spec x k) as [-> | Hx]; cbn.
    + apply keqb_neq in Hne. now rewrite Hne.
    + now rewrite IH.
Qed.

Lemma mem_ext {K : Type} `{EqKeyLaws K} (k : K) (l1 l2 : list K) :
  (In k l1 <-> In k l2) -> existsb (keqb k) l1 = existsb (keqb k) l2.
Proof.
  intros Hiff. destruct (existsb (keqb k) l2) eqn:H2.
  - apply mem_In, Hiff. now apply mem_In.
  - apply mem_not_In. apply mem_not_In in H2. tauto.
Qed.

Section SecondPass.
Variables (ks : list key) (paths : list (string * value)).
Hypothesis paths_NoDup : NoDup (keys paths).

Let E : list key := emission_order ks paths.
Let out : list (string * value) := flat_map (block paths) E.

Lemma found_again : dedup (map tag_of out) = E.
Proof.
  apply (found_blocks tag_of paths).
  - apply emission_order_NoDup.
  - intros k. apply emission_order_In.
Qed.

(** A sorted block is found again as it is. *)
Lemma block_again k : In k E -> block out k = block paths k.
Proof.
  intros Hk. unfold out, block.
  rewrite (select_blocks tag_of paths E k (emission_order_NoDup ks paths) Hk).
  apply sorted_by_path_idem.
Qed.

(** The buckets of the output are written in the same order. *)
Lemma emission_order_again : emission_order ks out = E.
Proof.
  unfold emission_order at 1. rewrite found_again.
  set (found := dedup (map tag_of paths)).
  set (unlisted := fun k => negb (existsb (keqb k) ks) && negb (keqb k untagged)).
  assert (Hmem : forall l, filter (fun k => existsb (keqb k) E) l
                           = filter (fun k => existsb (keqb k) found) l).
  { intros l. apply filter_ext. intros k. apply mem_ext.
    unfold E, found. now rewrite emission_order_In, In_dedup. }
  assert (Hunl : filter unlisted E = filter unlisted found).
  { unfold E, emission_order. fold found. fold unlisted.
    rewrite filter_dedup, !filter_app.
    rewrite (filter_none unlisted (filter _ ks)).
    2:{ intros k Hk. apply filter_In in Hk as [Hk _]. unfold unlisted.
        apply mem_In in Hk. now rewrite Hk. }
    rewrite (filter_none unlisted (filter _ [untagged])).
    2:{ intros k Hk. apply filter_In in Hk as [[<- | []] _]. unfold unlisted.
        rewrite keqb_refl. apply andb_false_r. }
    cbn [app]. rewrite (filter_all unlisted (filter unlisted found)).
    2:{ intros k Hk. now apply filter_In in Hk. }
    apply dedup_fixed, NoDup_filter, NoDup_dedup. }
  rewrite !Hmem, Hunl. reflexivity.
Qed.

Lemma second_pass :
  flat_map (block out) (emission_order ks out) = out.
Proof.
  rewrite emission_order_again.
  change (flat_map (block out) E = flat_map (block paths) E).
  apply flat_map_ext_in. intros k Hk. now apply block_again.
Qed.

End SecondPass.

(** C7: the function returns its own output when it is run on the document
    whose [paths] is that output, the [tags] being the same. *)
Theorem reorganize_idempotent api_spec paths out :
  getitem_str api_spec "paths" = Ok (VDict paths) ->
  NoDup (keys paths) ->
  reorganize_paths_by_tags api_spec = Ok out ->
  reorganize_paths_by_tags (set_paths api_spec out) = Ok out.
Proof.
  intros Hp Hu Hout.
  destruct (run_some_tags api_spec paths out Hp Hu Hout) as (tag_order & Hto).
  destruct (run_closed api_spec tag_order paths out Hto Hp Hu Hout)
    as (Hks & Hbs & Heq).
  assert (Hn := out_NoDup api_spec paths out Hp Hu Hout).
  assert (Hin := out_In api_spec paths out Hp Hu Hout).
  destruct api_spec as [| | | | | d]; try discriminate Hp. cbn [set_paths].
  rewrite (reorganize_eq _ tag_order out).
  - rewrite (comprehension_Forall_Ok _ tag_of), Hks.
    + f_equal. rewrite Heq. now apply second_pass.
    + rewrite Forall_forall in *. intros e He. apply Hbs. now apply Hin.
  - rewrite <- Hto. unfold tag_order_of, get_default.
    now rewrite dict_get_set_neq by discriminate.
  - unfold getitem_str. now rewrite dict_get_set_eq.
  - exact Hn.
Qed.

Lemma reorganize_idempotent_witness :
  reorganize_paths_by_tags petstore = Ok petstore_sorted /\
  reorganize_paths_by_tags (set_paths petstore petstore_sorted)
  = Ok petstore_sorted.
Proof.
  split; [reflexivity |].
  apply (reorganize_idempotent petstore petstore_paths petstore_sorted).
  - reflexivity.
  - apply distinct_NoDup. reflexivity.
  - reflexivity.
Defined.

(** ** Failures *)

(** C8, as the code has it: a document without [paths] never yields a
    mapping.  The lookup of [paths] raises [KeyError] for that key once the
    tag order is computed; a [tags] field of an unexpected shape raises
    before that, with its own exception. *)
Theorem missing_paths_raises d :
  dict_get d "paths" = None ->
  reorganize_paths_by_tags (VDict d)
  = match tag_order_of (VDict d) with
    | Ok _ => Raise (KeyError (VStr "paths"))
    | Raise e => Raise e
    end /\
  (dict_get d "tags" = None ->
   reorganize_paths_by_tags (VDict d) = Raise (KeyError (VStr "paths"))) /\
  (forall tags,
     dict_get d "tags" = Some (VList tags) ->
     Forall (fun tag => exists fields name,
                 tag = VDict fields /\ dict_get fields "name" = Some name) tags ->
     reorganize_paths_by_tags (VDict d) = Raise (KeyError (VStr "paths"))) /\
  (forall out, reorganize_paths_by_tags (VDict d) <> Ok out).
Proof.
  intros Hp.
  assert (Heq : reorganize_paths_by_tags (VDict d)
                = match tag_order_of (VDict d) with
                  | Ok _ => Raise (KeyError (VStr "paths"))
                  | Raise e => Raise e
                  end).
  { unfold reorganize_paths_by_tags.
    destruct (tag_order_of (VDict d)); cbn; [| reflexivity]. now rewrite Hp. }
  split; [exact Heq |]. split; [| split].
  - intros Ht. rewrite Heq. unfold tag_order_of. cbn. now rewrite Ht.
  - intros tags Ht Hnames. rewrite Heq. unfold tag_order_of. cbn. rewrite Ht. cbn.
    clear Ht Heq.
    induction Hnames as [| tag tags (fields & name & -> & Hname) _ IH];
      cbn; [reflexivity |].
    rewrite Hname. cbn.
    now destruct (comprehension (fun tag => getitem_str tag "name") tags).
  - intros out. rewrite Heq. now destruct (tag_order_of (VDict d)).
Qed.

Lemma missing_paths_raises_witness :
  reorganize_paths_by_tags no_paths = Raise (KeyError (VStr "paths")).
Proof.
  destruct (missing_paths_raises [("info", VStr "api")]) as (_ & Hnotags & _).
  - reflexivity.
  - apply Hnotags. reflexivity.
Defined.

(** C8 as stated fails: [no_paths_null_tags] has no [paths], and the
    exception is the [TypeError] of the loop over its [tags], which is
    [None]. *)
Lemma null_tags_counterexample :
  getitem_str no_paths_null_tags "paths" = Raise (KeyError (VStr "paths")) /\
  reorganize_paths_by_tags no_paths_null_tags = Raise TypeError /\
  reorganize_paths_by_tags no_paths_null_tags <> Raise (KeyError (VStr "paths")).
Proof. repeat split. discriminate. Qed.

(** The scan of a PathItem with tolerated entries ends with a value that is
    falsy or hashable. *)
Lemma find_primary_tag_tolerated entries :
  Forall (fun entry => entry_ok entry = true) entries ->
  exists t, find_primary_tag entries = Ok t /\
            (truthy t = true -> exists k, hash_key t = Ok k).
Proof.
  induction 1 as [| [method v] entries Hok _ IH]; cbn.
  - exists VNone. split; [reflexivity | discriminate].
  - unfold entry_ok in Hok. cbn in Hok.
    destruct v as [| | | | | op]; trivial.
    destruct (dict_get op "tags") as [tags |]; trivial.
    destruct (truthy tags) eqn:Htr; trivial.
    unfold usable_tags in Hok. rewrite Htr in Hok. cbn in Hok.
    destruct tags as [| | | s | [| t ts] |]; try discriminate.
    + destruct s as [| c s]; [discriminate |]. cbn.
      exists (VStr (String c "")). split; [reflexivity |]. intros _.
      now exists (KStr (String c "")).
    + cbn. exists t. split; [reflexivity |]. intros Ht. rewrite Ht in Hok.
      cbn in Hok. destruct t; try discriminate; cbn; eauto.
Qed.

Lemma bucket_of_tolerated entries :
  Forall (fun entry => entry_ok entry = true) entries ->
  exists k, bucket_of (VDict entries) = Ok k.
Proof.
  intros Hok. destruct (find_primary_tag_tolerated entries Hok) as (t & Ht & Hk).
  unfold bucket_of. cbn. rewrite Ht. cbn.
  destruct (truthy t); [now apply Hk | now exists untagged].
Qed.

(** C9, as the code has it: an entry that is not a mapping with a [tags]
    field is passed over, and so is one whose [tags] is empty.  For a
    document whose path keys are strings (they are in [paths : list (string
    * value)]), whose declared names can be read and are hashable, and whose
    PathItems have only entries of these kinds or operations whose [tags]
    is a string or a sequence that starts with a scalar or a falsy value,
    the grouping of lines 22-41 does not raise and the function returns. *)
Theorem tolerated_entries_never_raise d tag_order paths :
  tag_order_of (VDict d) = Ok tag_order ->
  comprehension hash_key tag_order = Ok (declared tag_order) ->
  dict_get d "paths" = Some (VDict paths) ->
  NoDup (keys paths) ->
  Forall (fun e => exists entries,
              snd e = VDict entries /\
              Forall (fun entry => entry_ok entry = true) entries) paths ->
  (exists paths_by_tag, group_paths paths = Ok paths_by_tag) /\
  (exists out, reorganize_paths_by_tags (VDict d) = Ok out) /\
  (forall entry rest,
     qualifies entry = false ->
     find_primary_tag (entry :: rest) = find_primary_tag rest).
Proof.
  intros Hto Hks Hp Hu Hok.
  assert (Hbs : Forall (fun e => bucket_of (snd e) = Ok (tag_of e)) paths).
  { eapply Forall_impl; [| exact Hok].
    intros [p v] (entries & Hv & Hen). cbn in Hv. subst v.
    destruct (bucket_of_tolerated entries Hen) as (k & Hk).
    unfold tag_of. cbn [snd]. now rewrite Hk. }
  split; [| split].
  - rewrite group_paths_eq, (comprehension_Forall_Ok _ tag_of _ Hbs). eauto.
  - rewrite (reorganize_eq (VDict d) tag_order paths Hto); trivial.
    + rewrite (comprehension_Forall_Ok _ tag_of _ Hbs), Hks. eauto.
    + cbn. now rewrite Hp.
  - intros entry rest Hq.
    apply (find_primary_tag_skip [entry] rest). now constructor.
Qed.

Lemma tolerated_entries_never_raise_witness :
  (exists paths_by_tag,
     group_paths
       [("/b", VDict [("parameters", VList [VInt 1]);
                      ("x-note", VNone);
                      ("get", VDict [("tags", VStr "")]);
                      ("put", VDict [("summary", VStr "s")])]);
        ("/a", VDict [("get", VDict [("tags", VList [])]);
                      ("post", operation ["pets"])])]
     = Ok paths_by_tag) /\
  (exists out, reorganize_paths_by_tags odd_entries = Ok out) /\
  (forall entry rest,
     qualifies entry = false ->
     find_primary_tag (entry :: rest) = find_primary_tag rest).
Proof.
  apply (tolerated_entries_never_raise
           [("tags", VList [tag_decl "pets"]);
            ("paths",
             VDict [("/b", VDict [("parameters", VList [VInt 1]);
                                  ("x-note", VNone);
                                  ("get", VDict [("tags", VStr "")]);
                                  ("put", VDict [("summary", VStr "s")])]);
                    ("/a", VDict [("get", VDict [("tags", VList [])]);
                                  ("post", operation ["pets"])])])]
           [VStr "pets"]
           [("/b", VDict [("parameters", VList [VInt 1]);
                          ("x-note", VNone);
                          ("get", VDict [("tags", VStr "")]);
                          ("put", VDict [("summary", VStr "s")])]);
            ("/a", VDict [("get", VDict [("tags", VList [])]);
                          ("post", operation ["pets"])])]).
  - reflexivity.
  - reflexivity.
  - reflexivity.
  - apply distinct_NoDup. reflexivity.
  - repeat constructor; eexists; (split; [reflexivity | repeat constructor]).
Defined.

(** C9 as stated fails: in [numeric_tags] the [tags] field of the only
    operation holds the number 5, and [tags[0]] raises [TypeError]. *)
Lemma numeric_tags_counterexample :
  getitem_str numeric_tags "paths"
  = Ok (VDict [("/a", VDict [("get", VDict [("tags", VInt 5)])])]) /\
  reorganize_paths_by_tags numeric_tags = Raise TypeError /\
  ~ exists out, reorganize_paths_by_tags numeric_tags = Ok out.
Proof.
  repeat split. intros (out & Hout). discriminate Hout.
Qed.

(** ** A tag named "untagged" *)

(** C10: a path whose operation carries the tag "untagged" and a path
    without a tagged operation are filed in the same bucket, the one keyed
    "untagged", and come out in one sorted block that holds the entries of
    that bucket and nothing else.  When "untagged" is a declared name, the
    block is written at the place of its first declaration: after the
    paths of the tags with a declaration before it, and before the paths
    of every other tag that has no declaration before it, the tags
    declared later among them. *)
Theorem untagged_name_is_the_sentinel
  api_spec tag_order paths out p1 item1 p2 item2 :
  tag_order_of api_spec = Ok tag_order ->
  getitem_str api_spec "paths" = Ok (VDict paths) ->
  NoDup (keys paths) ->
  reorganize_paths_by_tags api_spec = Ok out ->
  In (p1, VDict item1) paths ->
  find_primary_tag item1 = Ok (VStr "untagged") ->
  In (p2, VDict item2) paths ->
  Forall (fun e => qualifies e = false) item2 ->
  bucket_of (VDict item1) = Ok untagged /\
  bucket_of (VDict item2) = Ok untagged /\
  (exists paths_by_tag entries,
     group_paths paths = Ok paths_by_tag /\
     dict_get paths_by_tag untagged = Some entries /\
     (forall e, In e entries <->
                In e paths /\ bucket_of (snd e) = Ok untagged) /\
     In (p1, VDict item1) entries /\ In (p2, VDict item2) entries) /\
  (exists before bucket after,
     out = before ++ bucket ++ after /\
     (forall e, In e bucket <->
                In e paths /\ bucket_of (snd e) = Ok untagged) /\
     In (p1, VDict item1) bucket /\ In (p2, VDict item2) bucket /\
     StronglySorted path_le bucket /\
     (forall e, In e (before ++ after) -> bucket_of (snd e) <> Ok untagged)) /\
  (forall l1 l2 B q sq,
     declared tag_order = l1 ++ untagged :: l2 -> ~ In B l1 -> B <> untagged ->
     In (q, sq) paths -> bucket_of sq = Ok B ->
     precedes (keys out) p1 q /\ precedes (keys out) p2 q) /\
  (forall l1 l2 A q sq,
     declared tag_order = l1 ++ A :: l2 -> ~ In untagged l1 -> A <> untagged ->
     In (q, sq) paths -> bucket_of sq = Ok A ->
     precedes (keys out) q p1 /\ precedes (keys out) q p2).
Proof.
  intros Hto Hp Hu Hout Hin1 Htag1 Hin2 Hnone2.
  assert (Hb1 : bucket_of (VDict item1) = Ok untagged).
  { unfold bucket_of. cbn. now rewrite Htag1. }
  assert (Hb2 : bucket_of (VDict item2) = Ok untagged).
  { unfold bucket_of. cbn.
    rewrite <- (app_nil_r item2), find_primary_tag_skip by exact Hnone2.
    reflexivity. }
  assert (Hrun := run_bucket api_spec tag_order paths out Hto Hp Hu Hout).
  assert (Hfiled : forall e, In e paths /\ tag_of e = untagged <->
                             In e paths /\ bucket_of (snd e) = Ok untagged).
  { intros e. split; intros [He Hk]; (split; [exact He |]); now apply Hrun. }
  split; [exact Hb1 |]. split; [exact Hb2 |]. split; [| split; [| split]].
  - destruct (run_closed api_spec tag_order paths out Hto Hp Hu Hout)
      as (_ & Hbs & _).
    exists (map (fun k => (k, select tag_of k paths)) (dedup (map tag_of paths))),
      (select tag_of untagged paths).
    split; [| split; [| split; [| split]]].
    + rewrite group_paths_eq.
      now rewrite (comprehension_Forall_Ok _ tag_of _ Hbs).
    + rewrite tabulate_get.
      assert (Hm : existsb (keqb untagged) (dedup (map tag_of paths)) = true).
      { apply mem_In, In_dedup.
        apply (Hrun (p1, VDict item1)) in Hb1; [| exact Hin1].
        rewrite <- Hb1. now apply in_map. }
      now rewrite Hm.
    + intros e. rewrite select_In. apply Hfiled.
    + apply select_In. split; [exact Hin1 | now apply Hrun].
    + apply select_In. split; [exact Hin2 | now apply Hrun].
  - destruct (out_split api_spec paths out Hp Hu Hout untagged)
      as (before & after & Heq & Hrest).
    exists before, (block paths untagged), after.
    split; [exact Heq |].
    split; [intros e; unfold block; rewrite blk_In; apply Hfiled |].
    split; [apply blk_In; split; [exact Hin1 | now apply Hrun] |].
    split; [apply blk_In; split; [exact Hin2 | now apply Hrun] |].
    split; [apply sorted_by_path_sorted |].
    intros e He Hk. destruct (Hrest e He) as [Hin Hne]. apply Hne.
    now apply Hrun.
  - intros l1 l2 B q sq Hks HB Hne Hq HBq.
    assert (Hord : precedes (emission_order (declared tag_order) paths) untagged B).
    { apply (declared_first _ paths l1 l2); trivial; [congruence | |].
      - apply (Hrun (p1, VDict item1)) in Hb1; [| exact Hin1].
        rewrite <- Hb1. now apply in_map.
      - apply (Hrun (q, sq)) in HBq; [| exact Hq].
        rewrite <- HBq. now apply in_map. }
    split.
    + now apply (run_before api_spec tag_order paths out Hto Hp Hu Hout
                   p1 (VDict item1) q sq untagged B).
    + now apply (run_before api_spec tag_order paths out Hto Hp Hu Hout
                   p2 (VDict item2) q sq untagged B).
  - intros l1 l2 A q sq Hks HU Hne Hq HAq.
    assert (Hord : precedes (emission_order (declared tag_order) paths) A untagged).
    { apply (declared_first _ paths l1 l2); trivial.
      - apply (Hrun (q, sq)) in HAq; [| exact Hq].
        rewrite <- HAq. now apply in_map.
      - apply (Hrun (p1, VDict item1)) in Hb1; [| exact Hin1].
        rewrite <- Hb1. now apply in_map. }
    split.
    + now apply (run_before api_spec tag_order paths out Hto Hp Hu Hout
                   q sq p1 (VDict item1) A untagged).
    + now apply (run_before api_spec tag_order paths out Hto Hp Hu Hout
                   q sq p2 (VDict item2) A untagged).
Qed.

Lemma untagged_name_is_the_sentinel_witness :
  bucket_of (VDict [("get", operation ["untagged"])]) = Ok untagged /\
  bucket_of (VDict [("get", operation [])]) = Ok untagged /\
  (exists paths_by_tag entries,
     group_paths untagged_in_the_middle_paths = Ok paths_by_tag /\
     dict_get paths_by_tag untagged = Some entries /\
     (forall e, In e entries <->
                In e untagged_in_the_middle_paths /\
                bucket_of (snd e) = Ok untagged) /\
     In ("/alpha", VDict [("get", operation ["untagged"])]) entries /\
     In ("/zeta", VDict [("get", operation [])]) entries) /\
  (exists before bucket after,
     untagged_in_the_middle_sorted = before ++ bucket ++ after /\
     (forall e, In e bucket <->
                In e untagged_in_the_middle_paths /\
                bucket_of (snd e) = Ok untagged) /\
     In ("/alpha", VDict [("get", operation ["untagged"])]) bucket /\
     In ("/zeta", VDict [("get", operation [])]) bucket /\
     StronglySorted path_le bucket /\
     (forall e, In e (before ++ after) -> bucket_of (snd e) <> Ok untagged)) /\
  (precedes (keys untagged_in_the_middle_sorted) "/alpha" "/gamma" /\
   precedes (keys untagged_in_the_middle_sorted) "/zeta" "/gamma") /\
  (precedes (keys untagged_in_the_middle_sorted) "/beta" "/alpha" /\
   precedes (keys untagged_in_the_middle_sorted) "/beta" "/zeta").
Proof.
  destruct (untagged_name_is_the_sentinel untagged_in_the_middle
              [VStr "pets"; VStr "untagged"; VStr "store"]
              untagged_in_the_middle_paths untagged_in_the_middle_sorted
              "/alpha" [("get", operation ["untagged"])]
              "/zeta" [("get", operation [])])
    as (Hb1 & Hb2 & Hbucket & Hblock & Hlater & Hearlier).
  - reflexivity.
  - reflexivity.
  - apply distinct_NoDup. reflexivity.
  - reflexivity.
  - simpl. tauto.
  - reflexivity.
  - simpl. tauto.
  - repeat constructor.
  - split; [exact Hb1 |]. split; [exact Hb2 |].
    split; [exact Hbucket |]. split; [exact Hblock |]. split.
    + apply (Hlater [KStr "pets"] [KStr "store"] (KStr "store") "/gamma"
               (VDict [("get", operation ["store"])])).
      * reflexivity.
      * simpl. intros [H | []]. discriminate H.
      * discriminate.
      * simpl. tauto.
      * reflexivity.
    + apply (Hearlier [] [untagged; KStr "store"] (KStr "pets") "/beta"
               (VDict [("get", operation ["pets"])])).
      * reflexivity.
      * simpl. tauto.
      * discriminate.
      * simpl. tauto.
      * reflexivity.
Defined.

(** * Further properties of the script *)

(** ** The document that [main] writes *)

Lemma keys_dict_set {K V : Type} `{EqKeyLaws K} (d : list (K * V)) k v :
  In k (keys d) -> keys (dict_set d k v) = keys d.
Proof.
  induction d as [| [k' v'] d IH]; cbn; [tauto |].
  intros Hk. destruct (keqb_spec k' k) as [-> | Hne]; cbn; [reflexivity |].
  f_equal. apply IH. destruct Hk; [contradiction | assumption].
Qed.

Lemma dict_set_twice {K V : Type} `{EqKeyLaws K} (d : list (K * V)) k v :
  dict_set (dict_set d k v) k v = dict_set d k v.
Proof. apply dict_set_same, dict_get_set_eq. Qed.

Lemma getitem_str_Ok v k x :
  getitem_str v k = Ok x -> exists d, v = VDict d /\ dict_get d k = Some x.
Proof.
  destruct v as [| | | | | d]; cbn; try discriminate.
  destruct (dict_get d k) as [y |] eqn:Hk; [| discriminate].
  intros [= <-]. now exists d.
Qed.

(** What a run of [main] that returns went through. *)
Lemma main_Ok api_spec written :
  main api_spec = Ok written ->
  exists d paths out,
    api_spec = VDict d /\ dict_get d "paths" = Some (VDict paths) /\
    reorganize_paths_by_tags api_spec = Ok out /\
    written = VDict (dict_set d "paths" (VDict out)).
Proof.
  unfold main. destruct (getitem_str api_spec "paths") as [obj | e] eqn:Hp;
    [| discriminate].
  apply getitem_str_Ok in Hp as (d & -> & Hp).
  destruct obj as [| | | | | paths]; try discriminate. cbn.
  destruct (reorganize_paths_by_tags (VDict d)) as [out | e]; [| discriminate].
  cbn. intros [= <-]. now exists d, paths, out.
Qed.

(** A second run returns the mapping of the first. *)
Lemma rerun_same api_spec paths out :
  getitem_str api_spec "paths" = Ok (VDict paths) ->
  NoDup (keys paths) ->
  reorganize_paths_by_tags api_spec = Ok out ->
  reorganize_paths_by_tags (set_paths api_spec out) = Ok out.
Proof.
  intros Hp Hu Hout.
  destruct (run_some_tags api_spec paths out Hp Hu Hout) as (tag_order & Hto).
  destruct (run_closed api_spec tag_order paths out Hto Hp Hu Hout)
    as (Hks & Hbs & Heq).
  assert (Hin := out_In api_spec paths out Hp Hu Hout).
  apply getitem_str_Ok in Hp as (d & Hd & Hp). subst api_spec. cbn [set_paths].
  rewrite (reorganize_eq _ tag_order out).
  - rewrite (comprehension_Forall_Ok _ tag_of), Hks.
    + f_equal. rewrite Heq. now apply second_pass.
    + rewrite Forall_forall in *. intros e He. apply Hbs. now apply Hin.
  - rewrite <- Hto. unfold tag_order_of, get_default.
    now rewrite dict_get_set_neq by discriminate.
  - unfold getitem_str. now rewrite dict_get_set_eq.
  - eapply out_NoDup; [| exact Hu | exact Hout]. cbn. now rewrite Hp.
Qed.

(** X1: [main] reads [paths] before anything else: without that field it
    raises [KeyError] for it whatever [tags] holds, and with a [paths] that
    is not a mapping it raises [AttributeError]. *)
Theorem main_reads_paths_first d :
  (dict_get d "paths" = None ->
   main (VDict d) = Raise (KeyError (VStr "paths"))) /\
  (forall obj,
     dict_get d "paths" = Some obj ->
     (forall paths, obj <> VDict paths) ->
     main (VDict d) = Raise AttributeError).
Proof.
  split.
  - intros Hp. unfold main. cbn. now rewrite Hp.
  - intros obj Hp Hobj. unfold main. cbn. rewrite Hp. cbn.
    destruct obj as [| | | | | paths]; try reflexivity.
    now destruct (Hobj paths).
Qed.

(** X2: the document that [main] writes has the top-level keys of the
    loaded document in the same order and the same value under every key
    but [paths], which holds the mapping the function returned. *)
Theorem main_replaces_paths_only d written :
  main (VDict d) = Ok written ->
  exists d' out,
    written = VDict d' /\
    keys d' = keys d /\
    (forall k, k <> "paths" -> dict_get d' k = dict_get d k) /\
    reorganize_paths_by_tags (VDict d) = Ok out /\
    dict_get d' "paths" = Some (VDict out).
Proof.
  intros Hm. apply main_Ok in Hm as (d0 & paths & out & [= <-] & Hp & Hout & ->).
  exists (dict_set d "paths" (VDict out)), out.
  split; [reflexivity |]. split; [| split; [| split]].
  - apply keys_dict_set. apply dict_get_Some_In in Hp.
    change "paths" with (fst ("paths", VDict paths)). now apply in_map.
  - intros k Hk. apply dict_get_set_neq. congruence.
  - exact Hout.
  - apply dict_get_set_eq.
Qed.

Lemma main_replaces_paths_only_witness :
  exists d' out,
    VDict [("tags", VList [tag_decl "pets"; tag_decl "store"]);
           ("paths", VDict petstore_sorted)] = VDict d' /\
    keys d' = ["tags"; "paths"] /\
    (forall k, k <> "paths" ->
               dict_get d' k
               = dict_get [("tags", VList [tag_decl "pets"; tag_decl "store"]);
                           ("paths", VDict petstore_paths)] k) /\
    reorganize_paths_by_tags petstore = Ok out /\
    dict_get d' "paths" = Some (VDict out).
Proof.
  apply (main_replaces_paths_only
           [("tags", VList [tag_decl "pets"; tag_decl "store"]);
            ("paths", VDict petstore_paths)]).
  reflexivity.
Defined.

(** X3: [main] is idempotent on documents: run on the document it wrote,
    it writes the same document. *)
Theorem main_idempotent api_spec paths written :
  getitem_str api_spec "paths" = Ok (VDict paths) ->
  NoDup (keys paths) ->
  main api_spec = Ok written ->
  main written = Ok written.
Proof.
  intros Hp Hu Hm.
  apply main_Ok in Hm as (d & paths' & out & -> & Hp' & Hout & ->).
  assert (Hre := rerun_same (VDict d) paths out Hp Hu Hout).
  cbn [set_paths] in Hre. unfold main.
  cbn [getitem_str]. rewrite dict_get_set_eq. cbn.
  rewrite Hre. cbn. now rewrite dict_set_twice.
Qed.

Lemma main_idempotent_witness :
  main (VDict [("tags", VList [tag_decl "pets"; tag_decl "store"]);
               ("paths", VDict petstore_sorted)])
  = Ok (VDict [("tags", VList [tag_decl "pets"; tag_decl "store"]);
               ("paths", VDict petstore_sorted)]).
Proof.
  apply (main_idempotent petstore petstore_paths).
  - reflexivity.
  - apply distinct_NoDup. reflexivity.
  - reflexivity.
Defined.

Lemma main_reads_paths_first_witness :
  main no_paths_null_tags = Raise (KeyError (VStr "paths")).
Proof.
  apply (proj1 (main_reads_paths_first [("tags", VNone)])). reflexivity.
Defined.

(** ** The tags that are not declared *)

Lemma precedes_dedup_app {K : Type} `{EqKeyLaws K} (pre l : list K) (a b : K) :
  NoDup l -> precedes l a b -> ~ In a pre -> ~ In b pre ->
  precedes (dedup (pre ++ l)) a b.
Proof.
  intros Hnd Hab Ha Hb. rewrite dedup_app, (dedup_fixed l Hnd).
  apply precedes_app_r, precedes_filter; trivial;
    now apply negb_true_iff, mem_not_In.
Qed.

(** The buckets of the tags that are not declared are written in the order
    in which the scan of [paths] met these tags. *)
Lemma unlisted_in_scan_order (ks : list key) (paths : list (string * value))
  (A B : key) :
  ~ In A ks -> A <> untagged -> ~ In B ks -> B <> untagged ->
  precedes (dedup (map tag_of paths)) A B ->
  precedes (emission_order ks paths) A B.
Proof.
  intros HA HAu HB HBu Hab. unfold emission_order. rewrite app_assoc.
  assert (Hunl : forall k, ~ In k ks -> k <> untagged ->
                   negb (existsb (keqb k) ks) && negb (keqb k untagged) = true).
  { intros k Hk Hu. apply andb_true_iff. split; apply negb_true_iff.
    - now apply mem_not_In.
    - now apply keqb_neq. }
  apply precedes_dedup_app.
  - apply NoDup_filter, NoDup_dedup.
  - apply precedes_filter; auto.
  - rewrite in_app_iff, !filter_In. cbn [In]. intuition congruence.
  - rewrite in_app_iff, !filter_In. cbn [In]. intuition congruence.
Qed.

(** X4: among the tags that are not declared, the one that the input
    [paths] shows first has its paths first in the output. *)
Theorem unlisted_tags_in_order_of_appearance
  api_spec tag_order paths out l1 p0 s0 l2 A B p sp q sq :
  tag_order_of api_spec = Ok tag_order ->
  getitem_str api_spec "paths" = Ok (VDict paths) ->
  NoDup (keys paths) ->
  reorganize_paths_by_tags api_spec = Ok out ->
  ~ In A (declared tag_order) -> A <> untagged ->
  ~ In B (declared tag_order) -> B <> untagged -> A <> B ->
  paths = l1 ++ (p0, s0) :: l2 -> bucket_of s0 = Ok A ->
  (forall e, In e l1 -> bucket_of (snd e) <> Ok B) ->
  In (p, sp) paths -> bucket_of sp = Ok A ->
  In (q, sq) paths -> bucket_of sq = Ok B ->
  precedes (keys out) p q.
Proof.
  intros Hto Hp Hu Hout HA HAu HB HBu Hne Hsplit H0 Hl1 Hpin HpA Hqin HqB.
  assert (Hrun := run_bucket api_spec tag_order paths out Hto Hp Hu Hout).
  apply (run_before api_spec tag_order paths out Hto Hp Hu Hout p sp q sq A B);
    trivial.
  apply unlisted_in_scan_order; trivial.
  assert (Hin0 : In (p0, s0) paths)
    by (rewrite Hsplit, in_app_iff; right; now left).
  apply (Hrun (p0, s0) A Hin0) in H0.
  apply (Hrun (q, sq) B Hqin) in HqB.
  assert (HBl1 : ~ In B (map tag_of l1)).
  { rewrite in_map_iff. intros (e & He & Hin). apply (Hl1 e Hin).
    apply Hrun; [| exact He]. rewrite Hsplit, in_app_iff. now left. }
  rewrite Hsplit, map_app. cbn [map]. rewrite H0.
  apply dedup_precedes; trivial.
  rewrite Hsplit, in_app_iff in Hqin. destruct Hqin as [Hq | [Hq | Hq]].
  - exfalso. apply HBl1. rewrite <- HqB. now apply in_map.
  - exfalso. apply Hne. rewrite <- H0, <- HqB. now rewrite Hq.
  - rewrite <- HqB. now apply in_map.
Qed.

Lemma unlisted_tags_in_order_of_appearance_witness :
  reorganize_paths_by_tags two_unlisted
  = Ok [("/b", VDict [("get", operation ["zoo"])]);
        ("/c", VDict [("get", operation ["zoo"])]);
        ("/a", VDict [("get", operation ["admin"])])] /\
  precedes ["/b"; "/c"; "/a"] "/c" "/a".
Proof.
  split; [reflexivity |].
  apply (unlisted_tags_in_order_of_appearance two_unlisted [] two_unlisted_paths
           [("/b", VDict [("get", operation ["zoo"])]);
            ("/c", VDict [("get", operation ["zoo"])]);
            ("/a", VDict [("get", operation ["admin"])])]
           [] "/b" (VDict [("get", operation ["zoo"])])
           [("/a", VDict [("get", operation ["admin"])]);
            ("/c", VDict [("get", operation ["zoo"])])]
           (KStr "zoo") (KStr "admin")
           "/c" (VDict [("get", operation ["zoo"])])
           "/a" (VDict [("get", operation ["admin"])])).
  - reflexivity.
  - reflexivity.
  - apply distinct_NoDup. reflexivity.
  - reflexivity.
  - simpl. tauto.
  - discriminate.
  - simpl. tauto.
  - discriminate.
  - discriminate.
  - reflexivity.
  - reflexivity.
  - simpl. tauto.
  - simpl. tauto.
  - reflexivity.
  - simpl. tauto.
  - reflexivity.
Defined.

(** ** The order of the input *)

Lemma filter_Permutation {X : Type} (f : X -> bool) (l l' : list X) :
  Permutation l l' -> Permutation (filter f l) (filter f l').
Proof.
  induction 1 as [| x l l' _ IH | x y l | l l' l'' _ IH1 _ IH2]; cbn.
  - constructor.
  - destruct (f x); [now constructor | exact IH].
  - destruct (f x), (f y); try reflexivity. apply perm_swap.
  - now transitivity (filter f l').
Qed.

(** A dict has one sorted arrangement. *)
Lemma sorted_unique (l1 l2 : list (string * value)) :
  StronglySorted path_le l1 -> StronglySorted path_le l2 ->
  NoDup (keys l1) -> Permutation l1 l2 -> l1 = l2.
Proof.
  intros Hs1. revert l2. induction Hs1 as [| x l1 Hs1 IH Hx]; intros l2 Hs2 Hnd Hperm.
  - now apply Permutation_nil in Hperm.
  - destruct Hs2 as [| y l2 Hs2 Hy].
    + symmetry in Hperm. now apply Permutation_nil in Hperm.
    + assert (Hxy : x = y).
      { assert (Hx2 : In x (y :: l2)) by (apply (Permutation_in _ Hperm); now left).
        assert (Hy1 : In y (x :: l1))
          by (apply (Permutation_in _ (Permutation_sym Hperm)); now left).
        destruct Hx2 as [<- | Hx2]; [reflexivity |].
        destruct Hy1 as [-> | Hy1]; [reflexivity |].
        rewrite Forall_forall in Hx, Hy.
        apply (NoDup_keys_inj (x :: l1)); trivial; [now left | now right |].
        apply String.leb_antisym; [now apply Hx | now apply Hy]. }
      subst y. f_equal. apply IH; trivial.
      * now inversion Hnd.
      * now apply Permutation_cons_inv in Hperm.
Qed.

Lemma sorted_by_path_canonical (l l' : list (string * value)) :
  NoDup (keys l) -> Permutation l l' -> sorted_by_path l = sorted_by_path l'.
Proof.
  intros Hnd Hperm. apply sorted_unique; try apply sorted_by_path_sorted.
  - unfold keys. eapply Permutation_NoDup; [| exact Hnd].
    apply Permutation_map. symmetry. apply sorted_by_path_perm.
  - rewrite sorted_by_path_perm, Hperm. symmetry. apply sorted_by_path_perm.
Qed.

Lemma block_Permutation (paths paths' : list (string * value)) (k : key) :
  NoDup (keys paths) -> Permutation paths paths' ->
  block paths k = block paths' k.
Proof.
  intros Hnd Hperm. unfold block. apply sorted_by_path_canonical.
  - now apply NoDup_keys_filter.
  - now apply filter_Permutation.
Qed.

(** Without tags that are not declared, the order of the buckets does not
    depend on the order of [paths]. *)
Lemma emission_order_Permutation (ks : list key) (paths paths' : list (string * value)) :
  Permutation paths paths' ->
  (forall k, In k (map tag_of paths) -> k = untagged \/ In k ks) ->
  emission_order ks paths = emission_order ks paths'.
Proof.
  intros Hperm Hdecl. unfold emission_order.
  assert (Hsame : forall k, In k (dedup (map tag_of paths))
                            <-> In k (dedup (map tag_of paths'))).
  { intros k. rewrite !In_dedup. split; apply Permutation_in;
      [| symmetry]; now apply Permutation_map. }
  assert (Hmem : forall l, filter (fun k => existsb (keqb k) (dedup (map tag_of paths))) l
                           = filter (fun k => existsb (keqb k) (dedup (map tag_of paths'))) l).
  { intros l. apply filter_ext. intros k. now apply mem_ext. }
  rewrite !Hmem. do 3 f_equal.
  rewrite !filter_none; trivial; intros k Hk.
  - apply Hsame, In_dedup, Hdecl in Hk. destruct Hk as [-> | Hk].
    + rewrite keqb_refl. apply andb_false_r.
    + apply mem_In in Hk. now rewrite Hk.
  - apply In_dedup, Hdecl in Hk. destruct Hk as [-> | Hk].
    + rewrite keqb_refl. apply andb_false_r.
    + apply mem_In in Hk. now rewrite Hk.
Qed.

(** X5: when every path has a declared tag or none, the returned mapping
    does not depend on the key order of the input [paths]. *)
Theorem output_independent_of_input_order
  api_spec api_spec' tag_order paths paths' out :
  tag_order_of api_spec = Ok tag_order ->
  tag_order_of api_spec' = Ok tag_order ->
  getitem_str api_spec "paths" = Ok (VDict paths) ->
  getitem_str api_spec' "paths" = Ok (VDict paths') ->
  NoDup (keys paths) ->
  Permutation paths paths' ->
  (forall p sp k, In (p, sp) paths -> bucket_of sp = Ok k ->
                  k = untagged \/ In k (declared tag_order)) ->
  reorganize_paths_by_tags api_spec = Ok out ->
  reorganize_paths_by_tags api_spec' = Ok out.
Proof.
  intros Hto Hto' Hp Hp' Hu Hperm Hdecl Hout.
  destruct (run_closed api_spec tag_order paths out Hto Hp Hu Hout)
    as (Hks & Hbs & Heq).
  rewrite (reorganize_eq api_spec' tag_order paths' Hto' Hp').
  - rewrite (comprehension_Forall_Ok _ tag_of), Hks.
    + f_equal. rewrite Heq.
      rewrite <- (emission_order_Permutation _ paths paths' Hperm).
      * apply flat_map_ext_in. intros k _. symmetry.
        now apply block_Permutation.
      * intros k Hk. apply in_map_iff in Hk as ([p sp] & <- & Hin).
        apply (Hdecl p sp); [exact Hin |].
        rewrite Forall_forall in Hbs. exact (Hbs _ Hin).
    + rewrite Forall_forall in *. intros e He. apply Hbs.
      apply (Permutation_in _ (Permutation_sym Hperm) He).
  - unfold keys. eapply Permutation_NoDup; [| exact Hu].
    now apply Permutation_map.
Qed.

Lemma output_independent_of_input_order_witness :
  reorganize_paths_by_tags declared_only = Ok declared_sorted /\
  reorganize_paths_by_tags declared_only_shuffled = Ok declared_sorted.
Proof.
  split; [reflexivity |].
  apply (output_independent_of_input_order declared_only declared_only_shuffled
           [VStr "pets"; VStr "store"] declared_paths declared_paths_shuffled).
  - reflexivity.
  - reflexivity.
  - reflexivity.
  - reflexivity.
  - apply distinct_NoDup. reflexivity.
  - apply NoDup_Permutation.
    + apply (NoDup_map_inv fst), distinct_NoDup. reflexivity.
    + apply (NoDup_map_inv fst), distinct_NoDup. reflexivity.
    + intros e. simpl. tauto.
  - intros p sp k Hin Hk. simpl in Hin.
    destruct Hin as [H | [H | [H | [H | []]]]];
      injection H as <- <-; injection Hk as <-; simpl; tauto.
  - reflexivity.
Defined.

(** ** The declared tags *)




(** ** When the function raises *)

(** X7: the scan of a PathItem is decided by its first entry with a
    non-empty [tags]: the entries before and after it make no difference.
    When that [tags] value is not a mapping, the scan raises exactly when
    the value is not usable: it ends without an exception for a string and
    for a sequence whose first element is falsy or a scalar, and for
    nothing else. *)
Theorem scan_decided_by_first_tagged_entry before method op after tags :
  Forall (fun e => qualifies e = false) before ->
  dict_get op "tags" = Some tags -> truthy tags = true ->
  bucket_of (VDict (before ++ (method, VDict op) :: after))
  = bucket_of (VDict [(method, VDict op)]) /\
  ((forall d, tags <> VDict d) ->
   ((exists k, bucket_of (VDict (before ++ (method, VDict op) :: after)) = Ok k)
    <-> (exists s, tags = VStr s) \/
        (exists t ts, tags = VList (t :: ts) /\
                      (truthy t = false \/ exists k, hash_key t = Ok k)))).
Proof.
  intros Hb Ht Htr.
  assert (Heq : bucket_of (VDict (before ++ (method, VDict op) :: after))
                = (t <- getitem_0 tags ;;
                   if truthy t then hash_key t else Ok untagged)).
  { unfold bucket_of. cbn [items bind].
    now rewrite (find_primary_tag_stop before method op after tags). }
  split.
  - rewrite Heq. unfold bucket_of. cbn. now rewrite Ht, Htr.
  - intros Hnodict. rewrite Heq.
    destruct tags as [| b | n | s | [| t ts] | d]; cbn in *; try discriminate.
    + split; [intros (k & Hk); discriminate |].
      intros [(s & Hs) | (t & ts & Hl & _)]; discriminate.
    + split; [intros (k & Hk); discriminate |].
      intros [(s & Hs) | (t & ts & Hl & _)]; discriminate.
    + destruct s as [| c s]; [discriminate |]. cbn. split; eauto.
    + destruct (truthy t) eqn:Htt; cbn.
      * split.
        -- intros Hk. right. exists t, ts. split; [reflexivity | now right].
        -- intros [(s & Hs) | (t' & ts' & Hl & Hok)]; [discriminate |].
           injection Hl as <- <-. destruct Hok as [Hf | Hk]; [congruence | exact Hk].
      * split; [| eauto]. intros _. right. exists t, ts.
        split; [reflexivity | now left].
    + now destruct (Hnodict d).
Qed.

Lemma scan_decided_by_first_tagged_entry_witness :
  bucket_of (VDict [("summary", VStr "s"); ("get", operation ["pets"]);
                    ("post", VDict [("tags", VInt 5)])])
  = bucket_of (VDict [("get", operation ["pets"])]) /\
  exists k, bucket_of (VDict [("summary", VStr "s"); ("get", operation ["pets"]);
                              ("post", VDict [("tags", VInt 5)])]) = Ok k.
Proof.
  destruct (scan_decided_by_first_tagged_entry [("summary", VStr "s")] "get"
              [("tags", VList [VStr "pets"])] [("post", VDict [("tags", VInt 5)])]
              (VList [VStr "pets"]))
    as (Halone & Hexact).
  - repeat constructor.
  - reflexivity.
  - reflexivity.
  - split; [exact Halone |]. apply Hexact; [discriminate |].
    right. exists (VStr "pets"), []. split; [reflexivity |].
    right. now exists (KStr "pets").
Defined.

Lemma comprehension_Ok_iff {X Y : Type} (f : X -> result Y) (xs : list X) :
  (exists ys, comprehension f xs = Ok ys)
  <-> Forall (fun x => exists y, f x = Ok y) xs.
Proof.
  induction xs as [| x xs IH]; cbn.
  - split; [constructor | eauto].
  - rewrite Forall_cons_iff, <- IH. destruct (f x) as [y | e]; cbn.
    + destruct (comprehension f xs) as [ys | e]; cbn.
      * split; eauto.
      * split; [intros (ys & Hys); discriminate |].
        intros (_ & ys & Hys). discriminate.
    + split; [intros (ys & Hys); discriminate |].
      intros ((y & Hy) & _). discriminate.
Qed.

Lemma comprehension_first_raise {X Y : Type} (f : X -> result Y)
  (l1 : list X) (x : X) (l2 : list X) (e : exn) :
  Forall (fun x => exists y, f x = Ok y) l1 -> f x = Raise e ->
  comprehension f (l1 ++ x :: l2) = Raise e.
Proof.
  intros Hl1 Hx. induction Hl1 as [| x1 l1 (y & Hy) _ IH]; cbn.
  - now rewrite Hx.
  - now rewrite Hy, IH.
Qed.


(** The function up to the writing of the buckets, which never raises. *)
Lemma reorganize_raises_like api_spec tag_order paths :
  tag_order_of api_spec = Ok tag_order ->
  getitem_str api_spec "paths" = Ok (VDict paths) ->
  (forall e, comprehension (fun x => bucket_of (snd x)) paths = Raise e ->
             reorganize_paths_by_tags api_spec = Raise e) /\
  (forall bs e, comprehension (fun x => bucket_of (snd x)) paths = Ok bs ->
                comprehension hash_key tag_order = Raise e ->
                reorganize_paths_by_tags api_spec = Raise e) /\
  (forall bs ks, comprehension (fun x => bucket_of (snd x)) paths = Ok bs ->
                 comprehension hash_key tag_order = Ok ks ->
                 exists out, reorganize_paths_by_tags api_spec = Ok out).
Proof.
  intros Hto Hp. unfold reorganize_paths_by_tags. rewrite Hto, Hp. cbn.
  rewrite group_paths_eq. repeat split.
  - intros e He. now rewrite He.
  - intros bs e Hbs He. rewrite Hbs. cbn. rewrite emit_declared_eq. now rewrite He.
  - intros bs ks Hbs Hks. rewrite Hbs. cbn. rewrite emit_declared_eq, Hks. cbn.
    eauto.
Qed.

(** X8: the first PathItem, in the order of [paths], whose scan raises
    decides the exception of the function; the PathItems after it are not
    looked at. *)
Theorem first_unreadable_path_item_decides
  api_spec tag_order l1 p path_spec l2 e :
  tag_order_of api_spec = Ok tag_order ->
  getitem_str api_spec "paths" = Ok (VDict (l1 ++ (p, path_spec) :: l2)) ->
  Forall (fun x => exists k, bucket_of (snd x) = Ok k) l1 ->
  bucket_of path_spec = Raise e ->
  reorganize_paths_by_tags api_spec = Raise e.
Proof.
  intros Hto Hp Hl1 He.
  apply (reorganize_raises_like api_spec tag_order _ Hto Hp).
  now apply (comprehension_first_raise (fun x => bucket_of (snd x)) l1 (p, path_spec)).
Qed.

Lemma first_unreadable_path_item_decides_witness :
  reorganize_paths_by_tags list_path_item = Raise AttributeError.
Proof.
  apply (first_unreadable_path_item_decides list_path_item []
           [("/a", VDict [("get", operation ["pets"])])]
           "/b" (VList [VStr "get"])
           [("/c", VDict [("get", VDict [("tags", VInt 5)])])]).
  - reflexivity.
  - reflexivity.
  - repeat constructor. now exists (KStr "pets").
  - reflexivity.
Defined.



(** X10: for a document whose mapping keys are strings, the function
    returns a mapping exactly when the tag order can be computed, every
    declared name is hashable, [paths] is a mapping and the scan of every
    PathItem ends without an exception: once the paths are grouped and the
    declared names hashed, nothing can raise, the path keys being strings
    that [sorted] can compare. *)
Theorem returns_exactly_when api_spec :
  (exists out, reorganize_paths_by_tags api_spec = Ok out)
  <-> exists tag_order paths,
        tag_order_of api_spec = Ok tag_order /\
        Forall (fun tag => exists k, hash_key tag = Ok k) tag_order /\
        getitem_str api_spec "paths" = Ok (VDict paths) /\
        Forall (fun x => exists k, bucket_of (snd x) = Ok k) paths.
Proof.
  split.
  - intros (out & Hout). unfold reorganize_paths_by_tags in Hout.
    destruct (tag_order_of api_spec) as [tag_order | e] eqn:Hto; [| discriminate].
    destruct (getitem_str api_spec "paths") as [obj | e] eqn:Hp; [| discriminate].
    cbn in Hout. destruct obj as [| | | | | paths]; try discriminate. cbn in Hout.
    rewrite group_paths_eq in Hout.
    destruct (comprehension _ paths) as [bs | e] eqn:Hbs; [| discriminate].
    cbn in Hout. rewrite emit_declared_eq in Hout.
    destruct (comprehension hash_key tag_order) as [ks | e] eqn:Hks; [| discriminate].
    exists tag_order, paths. repeat split; trivial.
    + apply comprehension_Ok_iff. eauto.
    + apply (comprehension_Ok_iff (fun x => bucket_of (snd x))). eauto.
  - intros (tag_order & paths & Hto & Hks & Hp & Hbs).
    apply comprehension_Ok_iff in Hks as (ks & Hks).
    apply comprehension_Ok_iff in Hbs as (bs & Hbs).
    now apply (proj2 (proj2 (reorganize_raises_like api_spec tag_order paths Hto Hp))
                 bs ks).
Qed.



(** X12: the function reads the fields [tags] and [paths] of the document
    and nothing else. *)
Theorem only_tags_and_paths_are_read d d' :
  dict_get d "tags" = dict_get d' "tags" ->
  dict_get d "paths" = dict_get d' "paths" ->
  reorganize_paths_by_tags (VDict d) = reorganize_paths_by_tags (VDict d').
Proof.
  intros Ht Hp.
  unfold reorganize_paths_by_tags, tag_order_of, get_default, getitem_str.
  now rewrite Ht, Hp.
Qed.

Lemma only_tags_and_paths_are_read_witness :
  reorganize_paths_by_tags petstore = reorganize_paths_by_tags petstore_with_info.
Proof.
  apply (only_tags_and_paths_are_read
           [("tags", VList [tag_decl "pets"; tag_decl "store"]);
            ("paths", VDict petstore_paths)]
           [("openapi", VStr "3.0.0");
            ("tags", VList [tag_decl "pets"; tag_decl "store"]);
            ("paths", VDict petstore_paths)]).
  - reflexivity.
  - reflexivity.
Defined.

(** X13: [main] writes a document exactly when the function returns a
    mapping for the loaded document, and the document it writes is the
    loaded one with that mapping as its [paths]. *)
Theorem main_returns_when_function_returns api_spec written :
  main api_spec = Ok written
  <-> exists out, reorganize_paths_by_tags api_spec = Ok out /\
                  written = set_paths api_spec out.
Proof.
  split.
  - intros Hm. apply main_Ok in Hm as (d & paths & out & -> & Hp & Hout & ->).
    now exists out.
  - intros (out & Hout & ->). assert (Hrun := Hout).
    unfold reorganize_paths_by_tags in Hrun.
    destruct (tag_order_of api_spec) as [tag_order | e]; [| discriminate].
    unfold main.
    destruct (getitem_str api_spec "paths") as [obj | e]; [| discriminate].
    cbn in Hrun. destruct obj as [| | | | | paths]; try discriminate.
    cbn. now rewrite Hout.
Qed.
